(** * The UFLPA entity-list seeder (scripts/seed_uflpa.py)

    A shallow embedding of the text-processing core of the script:
    section location, cleaning, segmentation into raw entries, entry
    parsing, de-duplication and SQL rendering, followed by the properties
    of these functions.

    Python strings are sequences of code points.  The alphabet modelled
    here is the Latin-1 block (code points below 256, carried by Rocq's
    [ascii]) together with
    - the bullet U+2022, the one character outside that block that the
      script names;
    - U+0130, U+0131, U+017F and U+212A, the four code points outside
      that block that [re.IGNORECASE] equates with an ASCII letter (with
      [i], [i], [s] and [k]);
    - U+0307, which [str.lower] writes after [i] for U+0130.
    Python's character predicates are tabulated on this alphabet. *)

From Stdlib Require Import ZArith NArith Ascii String List Bool Lia DecimalString.
From stdpp Require Import base decidable countable list gmap strings.

Local Open Scope bool_scope.
Local Open Scope list_scope.

(* ===================================================================== *)
(** ** Characters *)
(* ===================================================================== *)

Inductive char : Type :=
| L1 (a : ascii)      (* a code point below 256 *)
| Bullet              (* U+2022 *)
| CapitalDottedI      (* U+0130, LATIN CAPITAL LETTER I WITH DOT ABOVE *)
| DotlessI            (* U+0131, LATIN SMALL LETTER DOTLESS I *)
| LongS               (* U+017F, LATIN SMALL LETTER LONG S *)
| Kelvin              (* U+212A, KELVIN SIGN *)
| CombiningDot.       (* U+0307, COMBINING DOT ABOVE *)

Global Instance char_eq_dec : EqDecision char.
Proof. solve_decision. Defined.

(** Python strings. *)
Abbreviation str := (list char).

(** The code point of a character, [ord(c)]. *)
Definition ord (c : char) : N :=
  match c with
  | L1 a => N_of_ascii a
  | Bullet => 8226
  | CapitalDottedI => 304
  | DotlessI => 305
  | LongS => 383
  | Kelvin => 8490
  | CombiningDot => 775
  end.

(** The character of a code point, [chr(n)], on the code points of the
    alphabet. *)
Definition chr (n : N) : char :=
  if N.ltb n 256 then L1 (ascii_of_N n)
  else if N.eqb n 8226 then Bullet
  else if N.eqb n 304 then CapitalDottedI
  else if N.eqb n 305 then DotlessI
  else if N.eqb n 383 then LongS
  else if N.eqb n 8490 then Kelvin
  else CombiningDot.

Global Instance char_countable : Countable char.
Proof.
  refine (inj_countable' ord chr _).
  intros [a| | | | | |]; try reflexivity.
  unfold chr, ord. pose proof (N_ascii_bounded a) as Hb.
  apply N.ltb_lt in Hb. rewrite Hb. now rewrite ascii_N_embedding.
Defined.

Definition char_eqb (c d : char) : bool := N.eqb (ord c) (ord d).

Definition in_range (lo hi : N) (c : char) : bool :=
  N.leb lo (ord c) && N.leb (ord c) hi.

(** [c.isspace()], which is also the class [\s] of [re] on [str]. *)
Definition isspace (c : char) : bool :=
  in_range 9 13 c || in_range 28 32 c || in_range 133 133 c || in_range 160 160 c.

(** [c.isupper()] for a single character. *)
Definition isupper (c : char) : bool :=
  in_range 65 90 c || in_range 192 214 c || in_range 216 222 c
  || in_range 304 304 c || in_range 8490 8490 c.

(** [c.islower()] for a single character. *)
Definition islower (c : char) : bool :=
  in_range 97 122 c || in_range 170 170 c || in_range 181 181 c
  || in_range 186 186 c || in_range 223 246 c || in_range 248 255 c
  || in_range 305 305 c || in_range 383 383 c.

(** The lower-case form of a character under the simple case mapping,
    which is what [re] compares under IGNORECASE: the upper-case letters
    of Latin-1 move up by 32, U+0130 goes to [i] and U+212A to [k]. *)
Definition tolower (c : char) : char :=
  match c with
  | L1 a => if isupper c then L1 (ascii_of_N (N_of_ascii a + 32)) else c
  | CapitalDottedI => L1 "i"
  | Kelvin => L1 "k"
  | _ => c
  end.

(** [c.lower()] for a single character: as [tolower], except that U+0130
    becomes [i] followed by U+0307. *)
Definition lower_char (c : char) : str :=
  match c with
  | CapitalDottedI => [L1 "i"; CombiningDot]
  | _ => [tolower c]
  end.

(** [s.lower()]. *)
Definition lower (s : str) : str := flat_map lower_char s.

(** The classes of [re]: [\d], [\w], [\S], [.] (without and with DOTALL),
    [[A-Z]], [[a-z]] and [[^)]]. *)
Definition re_digit (c : char) : bool := in_range 48 57 c.

Definition re_word (c : char) : bool :=
  in_range 48 57 c || in_range 65 90 c || in_range 95 95 c || in_range 97 122 c
  || in_range 170 170 c || in_range 178 179 c || in_range 181 181 c
  || in_range 185 186 c || in_range 188 190 c || in_range 192 214 c
  || in_range 216 246 c || in_range 248 255 c || in_range 304 305 c
  || in_range 383 383 c || in_range 8490 8490 c.

Definition re_nonspace (c : char) : bool := negb (isspace c).
Definition re_dot (c : char) : bool := negb (N.eqb (ord c) 10).
Definition re_any (c : char) : bool := true.
Definition re_AZ (c : char) : bool := in_range 65 90 c.
Definition re_az (c : char) : bool := in_range 97 122 c.
Definition re_not_rparen (c : char) : bool := negb (N.eqb (ord c) 41).

(** String literals of the source. *)
Definition txt (s : string) : str := map L1 (list_ascii_of_string s).
Arguments txt s%_string.

Definition NL : char := L1 "010"%char.
Definition SP : char := L1 " "%char.
Definition DQUOTE : char := L1 "034"%char.
Definition SQUOTE : char := L1 "'"%char.

(** Membership of a character in a literal set, as in [rstrip(".,;")]. *)
Definition char_in (set : str) (c : char) : bool := existsb (char_eqb c) set.

(* ===================================================================== *)
(** ** Exceptions *)
(* ===================================================================== *)

Inductive exn : Type := IndexError | TypeError.

Inductive outcome (A : Type) : Type :=
| Ret (a : A)
| Raise (e : exn).
Arguments Ret {A} a.
Arguments Raise {A} e.

Definition bind {A B} (m : outcome A) (f : A -> outcome B) : outcome B :=
  match m with
  | Ret a => f a
  | Raise e => Raise e
  end.

Notation "'let*' x := m 'in' k" := (bind m (fun x => k))
  (at level 10, x pattern, m at level 100, k at level 200).

(** A [for] loop threading a state, stopping at the first exception. *)
Fixpoint for_each {A S} (body : S -> A -> outcome S) (st : S) (l : list A) : outcome S :=
  match l with
  | [] => Ret st
  | a :: l' => let* st' := body st a in for_each body st' l'
  end.

(* ===================================================================== *)
(** ** String methods *)
(* ===================================================================== *)

(** Truthiness of a string: [if s:]. *)
Definition nonempty (s : str) : bool :=
  match s with [] => false | _ :: _ => true end.

Fixpoint lstrip_by (p : char -> bool) (s : str) : str :=
  match s with
  | c :: s' => if p c then lstrip_by p s' else s
  | [] => []
  end.

Definition rstrip_by (p : char -> bool) (s : str) : str :=
  reverse (lstrip_by p (reverse s)).

Definition strip_by (p : char -> bool) (s : str) : str :=
  rstrip_by p (lstrip_by p s).

(** [s.strip()], [s.rstrip(chars)] and [s.strip(chars)]. *)
Definition strip (s : str) : str := strip_by isspace s.
Definition rstrip (chars : str) (s : str) : str := rstrip_by (char_in chars) s.
Definition strip_chars (chars : str) (s : str) : str := strip_by (char_in chars) s.

(** [s.startswith(pre)]. *)
Fixpoint startswith (s pre : str) {struct pre} : bool :=
  match pre, s with
  | [], _ => true
  | p :: pre', c :: s' => char_eqb c p && startswith s' pre'
  | _ :: _, [] => false
  end.

(** [s.rfind(sub)]: the highest index at which [sub] occurs, [-1] if none. *)
Fixpoint rfind (s sub : str) : Z :=
  match s with
  | [] => if startswith [] sub then 0%Z else (-1)%Z
  | _ :: s' =>
      let r := rfind s' sub in
      if (0 <=? r)%Z then (r + 1)%Z
      else if startswith s sub then 0%Z else (-1)%Z
  end.

(** [s[i:]] for an integer [i] of either sign. *)
Definition slice_from (s : str) (i : Z) : str :=
  if (i <? 0)%Z then drop (length s - Z.to_nat (- i)) s
  else drop (Z.to_nat i) s.

(** [s.split(sep)] for a one-character separator. *)
Fixpoint split_acc (sep : char) (cur : str) (s : str) : list str :=
  match s with
  | [] => [reverse cur]
  | c :: s' =>
      if char_eqb c sep then reverse cur :: split_acc sep [] s'
      else split_acc sep (c :: cur) s'
  end.

Definition split (sep : char) (s : str) : list str := split_acc sep [] s.

(** [sep.join(l)]. *)
Fixpoint join (sep : str) (l : list str) : str :=
  match l with
  | [] => []
  | [x] => x
  | x :: l' => x ++ sep ++ join sep l'
  end.

(** [s.replace(old, new)] for a non-empty [old]: left to right, without
    overlap.  [skip] counts the characters of the occurrence being
    replaced that are still to be passed over. *)
Fixpoint replace_from (old new : str) (skip : nat) (s : str) : str :=
  match s with
  | [] => []
  | c :: s' =>
      match skip with
      | S k => replace_from old new k s'
      | O =>
          if startswith s old then new ++ replace_from old new (length old - 1) s'
          else c :: replace_from old new 0 s'
      end
  end.

Definition replace (old new : str) (s : str) : str := replace_from old new 0 s.

(** [str(n)] for a non-negative integer. *)
Definition str_of_nat (n : nat) : str := txt (NilEmpty.string_of_uint (Nat.to_uint n)).

(* ===================================================================== *)
(** ** Regular expressions *)
(* ===================================================================== *)

(** The fragment of [re] that the script uses.  Repetition is only ever
    applied to a character class, greedily ([Many], as in [\s*]) or
    lazily ([Few], as in [.*?]); [x+] is written [Cls x] followed by
    [Many x].  At most one capture group occurs in a pattern. *)
Inductive regex : Type :=
| Eps
| Lit (c : char)
| Cls (p : char -> bool)
| Bol
| Seq (r1 r2 : regex)
| Alt (r1 r2 : regex)
| Opt (r : regex)
| Many (p : char -> bool)
| Few (p : char -> bool)
| Grp (r : regex).

Fixpoint cat (rs : list regex) : regex :=
  match rs with
  | [] => Eps
  | r :: rs' => Seq r (cat rs')
  end.

Fixpoint alts (r : regex) (rs : list regex) : regex :=
  match rs with
  | [] => r
  | r' :: rs' => Alt r (alts r' rs')
  end.

(** A literal run of characters. *)
Definition lits (s : str) : regex := cat (map Lit s).

(** [x+] over a class. *)
Definition plus (p : char -> bool) : regex := Seq (Cls p) (Many p).

(** The table [_ignorecase_fixes] of [re] on this alphabet: the other
    lower-case characters that IGNORECASE accepts for a lower-case
    letter. *)
Definition ignorecase_fixes (lo : char) : str :=
  if char_eqb lo (L1 "i") then [DotlessI]
  else if char_eqb lo DotlessI then [L1 "i"]
  else if char_eqb lo (L1 "s") then [LongS]
  else if char_eqb lo LongS then [L1 "s"]
  else [].

(** A literal [c] of the pattern against a character [d] of the subject.
    Under IGNORECASE [re] compiles the literal to its lower-case form [lo]
    and accepts [d] when the lower-case form of [d] is [lo] or is in the
    table for [lo]. *)
Definition lit_match (ic : bool) (c d : char) : bool :=
  if ic then
    let lo := tolower c in
    char_eqb (tolower d) lo || char_in (ignorecase_fixes lo) (tolower d)
  else char_eqb d c.

Section Exec.
Context {R : Type}.
Variable ic : bool.

(** The backtracking matcher, in continuation-passing style: [exec r pos
    s g k] matches [r] at offset [pos], where [s] is the rest of the
    subject from there on and [g] the span of group 1 so far, and hands
    every way of matching, in the priority order of [re], to [k] until
    one of them succeeds. *)
Fixpoint exec (r : regex) (pos : nat) (s : str) (g : option (nat * nat))
         (k : nat -> str -> option (nat * nat) -> option R) : option R :=
  match r with
  | Eps => k pos s g
  | Lit c =>
      match s with
      | d :: s' => if lit_match ic c d then k (S pos) s' g else None
      | [] => None
      end
  | Cls p =>
      match s with
      | d :: s' => if p d then k (S pos) s' g else None
      | [] => None
      end
  | Bol => if Nat.eqb pos 0 then k pos s g else None
  | Seq r1 r2 => exec r1 pos s g (fun pos' s' g' => exec r2 pos' s' g' k)
  | Alt r1 r2 =>
      match exec r1 pos s g k with
      | Some x => Some x
      | None => exec r2 pos s g k
      end
  | Opt r1 =>
      match exec r1 pos s g k with
      | Some x => Some x
      | None => k pos s g
      end
  | Many p =>
      (fix many (pos : nat) (s : str) : option R :=
         match s with
         | d :: s' =>
             if p d then
               match many (S pos) s' with
               | Some x => Some x
               | None => k pos s g
               end
             else k pos s g
         | [] => k pos s g
         end) pos s
  | Few p =>
      (fix few (pos : nat) (s : str) : option R :=
         match k pos s g with
         | Some x => Some x
         | None =>
             match s with
             | d :: s' => if p d then few (S pos) s' else None
             | [] => None
             end
         end) pos s
  | Grp r1 => exec r1 pos s g (fun pos' s' _ => k pos' s' (Some (pos, pos')))
  end.
End Exec.

(** A match object: [m.start()], [m.end()] and the span of group 1. *)
Record rmatch : Type := mk_rmatch {
  m_start : nat;
  m_end : nat;
  m_span1 : option (nat * nat)
}.

(** The match of [r] that starts at offset [pos], if there is one. *)
Definition match_at (ic : bool) (r : regex) (pos : nat) (s : str) : option rmatch :=
  exec ic r pos s None (fun e _ g => Some (mk_rmatch pos e g)).

(** [re.match(r, s)]. *)
Definition re_match (ic : bool) (r : regex) (s : str) : option rmatch :=
  match_at ic r 0 s.

(** [re.search(r, s)]: the leftmost match. *)
Fixpoint search_from (ic : bool) (r : regex) (pos : nat) (s : str) : option rmatch :=
  match match_at ic r pos s with
  | Some m => Some m
  | None =>
      match s with
      | [] => None
      | _ :: s' => search_from ic r (S pos) s'
      end
  end.

Definition re_search (ic : bool) (r : regex) (s : str) : option rmatch :=
  search_from ic r 0 s.

(** [m.group(1)] on the subject [s]; [None] when the group took no part. *)
Definition group1 (m : rmatch) (s : str) : option str :=
  match m_span1 m with
  | Some (a, b) => Some (take (b - a) (drop a s))
  | None => None
  end.

(** [re.sub(r, repl, s)] for a literal replacement.  No pattern that the
    script substitutes or splits on can match the empty string (lemma
    [substituted_patterns_not_nullable]); the scan treats an empty match
    as no match.  [skip] counts the characters of the current match that are
    still to be passed over. *)
Fixpoint sub_from (ic : bool) (r : regex) (repl : str) (pos skip : nat) (s : str) : str :=
  match s with
  | [] => []
  | c :: s' =>
      match skip with
      | S k => sub_from ic r repl (S pos) k s'
      | O =>
          match match_at ic r pos s with
          | Some m =>
              if Nat.ltb pos (m_end m)
              then repl ++ sub_from ic r repl (S pos) (m_end m - pos - 1) s'
              else c :: sub_from ic r repl (S pos) 0 s'
          | None => c :: sub_from ic r repl (S pos) 0 s'
          end
      end
  end.

Definition re_sub (ic : bool) (r : regex) (repl : str) (s : str) : str :=
  sub_from ic r repl 0 0 s.

(** [re.split(r, s)] for a pattern without capture groups. *)
Fixpoint split_from (ic : bool) (r : regex) (pos skip : nat) (cur : str) (s : str) : list str :=
  match s with
  | [] => [reverse cur]
  | c :: s' =>
      match skip with
      | S k => split_from ic r (S pos) k cur s'
      | O =>
          match match_at ic r pos s with
          | Some m =>
              if Nat.ltb pos (m_end m)
              then reverse cur :: split_from ic r (S pos) (m_end m - pos - 1) [] s'
              else split_from ic r (S pos) 0 (c :: cur) s'
          | None => split_from ic r (S pos) 0 (c :: cur) s'
          end
      end
  end.

Definition re_split (ic : bool) (r : regex) (s : str) : list str :=
  split_from ic r 0 0 [] s.

(* ===================================================================== *)
(** ** The script *)
(* ===================================================================== *)

(** [\s+], the pattern of every whitespace collapse. *)
Definition WS_RUN : regex := plus isspace.

(** [ALIAS_PATTERN], compiled with IGNORECASE:
    [\((?:also known as|formerly known as|including \w+ aliases?):?\s*([^)]+)\)] *)
Definition ALIAS_PATTERN : regex :=
  cat [ Lit (L1 "(");
        alts (lits (txt "also known as"))
             [ lits (txt "formerly known as");
               cat [ lits (txt "including "); plus re_word;
                     lits (txt " aliase"); Opt (Lit (L1 "s")) ] ];
        Opt (Lit (L1 ":"));
        Many isspace;
        Grp (plus re_not_rparen);
        Lit (L1 ")") ].

(** The corporate and industry keywords of the segmenter (line 97), and
    the two further names that only the parser accepts (line 146). *)
Definition KEYWORDS : list str :=
  map txt [ "Co."; "Ltd."; "Inc."; "Corp."; "Group"; "Center"; "Park"; "Holdings";
            "Technology"; "Industry"; "Trading"; "Corporation"; "Mine"; "Mining";
            "Textile"; "Silicon"; "Energy"; "Semiconductor"; "Foods"; "Logistics";
            "XPCC" ]%string.

Definition PARSER_KEYWORDS : list str :=
  KEYWORDS ++ map txt [ "Ninestar"; "Camel" ]%string.

(** An alternation of literal words, [w1|w2|...]. *)
Definition any_of (ws : list str) : regex :=
  match ws with
  | [] => Eps
  | w :: ws' => alts (lits w) (map lits ws')
  end.

(** The marker of [get_entity_list_text] (line 35). *)
Definition marker : str := txt "Appendix 1".

(** [get_entity_list_text] (lines 29-41); the two [print] calls are not
    modelled. *)
Definition get_entity_list_text (full_text : str) : str :=
  let idx := rfind full_text marker in
  if (idx =? -1)%Z then full_text
  else slice_from full_text idx.

(** [clean_text] (lines 43-48). *)
Definition FR_HEADER : regex :=
  cat [ Cls re_digit; Cls re_digit; Cls re_digit; Cls re_digit;
        lits (txt " Federal Register"); Many isspace; Lit (L1 "/");
        Few re_dot; lits (txt "Notices"); Many isspace ].

Definition VERDATE : regex :=
  cat [ lits (txt "VerDate"); plus isspace; plus re_nonspace;
        Few re_any; lits (txt "NOTICES1"); Many isspace ].

Definition LOTTER : regex :=
  cat [ lits (txt "lotter on"); plus isspace; plus re_nonspace;
        Few re_dot; Lit NL ].

Definition clean_text (text : str) : str :=
  let text := re_sub false FR_HEADER (txt " ") text in
  let text := re_sub false VERDATE (txt " ") text in
  let text := re_sub false LOTTER (txt " ") text in
  text.

(** Raw entries are tagged with the pass that produced them. *)
Inductive tag : Type := tag_bullet | tag_list.

Definition raw_entry : Type := tag * str.

(** [This update also|UFLPA Section|Appendix] (line 70). *)
Definition SECTION_CUT : regex :=
  any_of (map txt [ "This update also"; "UFLPA Section"; "Appendix" ]%string).

(** [UFLPA Section 2\(d\)\(2\)\(B\)\(i\)\s+A List of Entities] (line 77). *)
Definition LIST_HEADER : regex :=
  cat [ lits (txt "UFLPA Section 2(d)(2)(B)(i)"); plus isspace;
        lits (txt "A List of Entities") ].

(** The section headers skipped by the accumulator (lines 88-89),
    matched with IGNORECASE. *)
Definition SKIP_LINE : regex :=
  alts (lits (txt "UFLPA Section"))
       [ lits (txt "Entities identified"); lits (txt "The FLETF");
         lits (txt "above may"); lits (txt "continue to");
         lits (txt "information about"); lits (txt "that meet");
         cat [ Bol; lits (txt "Section "); Cls re_digit ] ].

(** [^[A-Z][a-z]+.*;] (line 108). *)
Definition WORD_THEN_SEMI : regex :=
  cat [ Bol; Cls re_AZ; plus re_az; Many re_dot; Lit (L1 ";") ].

Definition is_match (m : option rmatch) : bool :=
  match m with Some _ => true | None => false end.

(** [line[0]]. *)
Definition first_char (line : str) : outcome char :=
  match line with
  | c :: _ => Ret c
  | [] => Raise IndexError
  end.

(** Truthiness of [current], which is [None] or a string. *)
Definition truthy (current : option str) : bool :=
  match current with
  | Some s => nonempty s
  | None => false
  end.

(** [entries.append(("list", current))] under [if current:]. *)
Definition flush (entries : list raw_entry) (current : option str) : list raw_entry :=
  match current with
  | Some s => if nonempty s then entries ++ [(tag_list, s)] else entries
  | None => entries
  end.

(** The test for the start of a new entry (lines 96-100). *)
Definition starts_entry (c0 : char) (line : str) : bool :=
  isupper c0
  && is_match (re_search false (any_of KEYWORDS) line)
  && negb (startswith line (txt "The "))
  && negb (startswith line (txt "These ")).

(** The test for a continuation line (lines 106-108). *)
Definition continues_entry (c0 : char) (line : str) : bool :=
  startswith line (txt "(") || islower c0
  || startswith line (txt "Ltd.") || startswith line (txt "Co.,")
  || startswith line (txt "and ") || is_match (re_match false WORD_THEN_SEMI line).

(** One turn of the loop over [lines] (lines 86-112); the state is
    [(entries, current)]. *)
Definition accumulate_line (st : list raw_entry * option str) (line : str)
  : outcome (list raw_entry * option str) :=
  let '(entries, current) := st in
  if is_match (re_match true SKIP_LINE line) then
    if truthy current then Ret (flush entries current, None)
    else Ret (entries, current)
  else
    let* c0 := first_char line in
    if starts_entry c0 line then
      Ret (flush entries current, Some line)
    else if truthy current then
      if continues_entry c0 line then
        Ret (entries, Some (default [] current ++ txt " " ++ line))
      else
        Ret (flush entries current, None)
    else Ret (entries, current).

(** The accumulator of the list section (lines 85-115), started from
    the entries found so far. *)
Definition accumulate (entries : list raw_entry) (lines : list str)
  : outcome (list raw_entry) :=
  let* (entries, current) := for_each accumulate_line (entries, None) lines in
  Ret (flush entries current).

(** The bullet pass over one fragment (lines 68-72). *)
Definition bullet_entry (part : str) : list raw_entry :=
  let part := strip (re_sub false WS_RUN (txt " ") part) in
  let part := strip (hd [] (re_split false SECTION_CUT part)) in
  if nonempty part then [(tag_bullet, part)] else [].

(** [split_into_raw_entries] (lines 50-117). *)
Definition split_into_raw_entries (text : str) : outcome (list raw_entry) :=
  let bullet_parts := split Bullet text in
  let entries := flat_map bullet_entry (tail bullet_parts) in
  match re_search false LIST_HEADER text with
  | Some section_match =>
      let list_text := drop (m_start section_match) text in
      let list_text := clean_text list_text in
      let lines := map strip (List.filter (fun l => nonempty (strip l)) (split NL list_text)) in
      accumulate entries lines
  | None => Ret entries
  end.

(** An entity record, [{"brand": ..., "aliases": ...}]. *)
Record entity : Type := mk_entity {
  brand : str;
  aliases : list str
}.

(** [;\s*(?:and\s+)?|,\s*and\s+|\s+and\s+] (line 128). *)
Definition ALIAS_SEP : regex :=
  alts (cat [ Lit (L1 ";"); Many isspace; Opt (cat [ lits (txt "and"); plus isspace ]) ])
       [ cat [ Lit (L1 ","); Many isspace; lits (txt "and"); plus isspace ];
         cat [ plus isspace; lits (txt "and"); plus isspace ] ].

(** [re.sub(r'\s+', ' ', s).strip()]. *)
Definition collapse (s : str) : str :=
  strip (re_sub false WS_RUN (txt " ") s).

(** The alias list of lines 128-133. *)
Definition split_aliases (raw_aliases : str) : list str :=
  let parts := re_split false ALIAS_SEP raw_aliases in
  map (fun p => strip (strip_chars (txt ";,") (strip p)))
      (List.filter (fun p => nonempty (strip p) && Nat.ltb 3 (length (strip p))) parts).

(** [parse_entry] (lines 119-149).  [re.split] raises [TypeError] on a
    group that is [None]. *)
Definition parse_entry (raw : str) : outcome (option entity) :=
  let raw := collapse raw in
  if negb (nonempty raw) || Nat.ltb (length raw) 5 then Ret None
  else
    let* (aliases, brand) :=
      match re_search true ALIAS_PATTERN raw with
      | Some aka_match =>
          match group1 aka_match raw with
          | Some raw_aliases =>
              Ret (split_aliases raw_aliases,
                   strip (rstrip (txt ".,;(") (strip (take (m_start aka_match) raw))))
          | None => Raise TypeError
          end
      | None => Ret ([], strip (rstrip (txt ".,;") (strip raw)))
      end in
    let brand := collapse brand in
    if negb (nonempty brand) || Nat.ltb (length brand) 5 then Ret None
    else if negb (is_match (re_search true (any_of PARSER_KEYWORDS) brand)) then Ret None
    else Ret (Some (mk_entity brand aliases)).

(** [escape_sql] (lines 151-152). *)
Definition escape_sql (s : str) : str := replace (txt "'") (txt "''") s.

Definition REASON : str :=
  txt "Listed on UFLPA Entity List. Subject to rebuttable presumption of forced labor under 19 U.S.C. "
  ++ [L1 "167"%char] ++ txt " 1307.".

(** A string between double quotes, [f'"{s}"']. *)
Definition dquoted (s : str) : str := [DQUOTE] ++ s ++ [DQUOTE].

(** The array literal of the aliases (line 167). *)
Definition render_aliases (al : list str) : str :=
  txt "{" ++ join (txt ",") (map (fun a => dquoted (escape_sql a)) al) ++ txt "}".

(** One row of the VALUES list (lines 166-174). *)
Definition render_row (e : entity) : str :=
  let brand := escape_sql (brand e) in
  let aliases := render_aliases (aliases e) in
  let reason := escape_sql REASON in
  txt "  ('" ++ brand ++ txt "', '" ++ aliases ++ txt "', '{" ++ dquoted (txt "general")
  ++ txt "}', '{" ++ dquoted (txt "CN") ++ txt "}', "
  ++ txt "'high', '{" ++ dquoted (txt "UFLPA") ++ txt "}', '" ++ reason
  ++ txt "', '2025-01-15')".

(** [generate_sql] (lines 154-178). *)
Definition generate_sql (entities : list entity) : str :=
  let lines :=
    [ txt "-- UFLPA Entity List (January 15, 2025)";
      txt "-- Generated by scripts/seed_uflpa.py";
      txt "-- " ++ str_of_nat (length entities) ++ txt " entities";
      txt "";
      txt "INSERT INTO companies (brand, aliases, product_categories, countries_of_origin, risk_level, sources, reason, last_updated)";
      txt "VALUES" ] in
  let rows := map render_row entities in
  let lines := lines ++ [ join (txt "," ++ [NL]) rows ++ txt ";" ] in
  join [NL] lines.

(** One turn of the de-duplicating loop of [main] (lines 195-201); the
    state is [(entities, seen)].  A record is a non-empty [dict], hence
    true under [if entity:]. *)
Definition dedup_step (st : list entity * gset str) (re : raw_entry)
  : outcome (list entity * gset str) :=
  let '(entities, seen) := st in
  let* parsed := parse_entry (snd re) in
  match parsed with
  | Some e =>
      let key := lower (brand e) in
      if decide (key ∈ seen) then Ret (entities, seen)
      else Ret (entities ++ [e], {[ key ]} ∪ seen)
  | None => Ret (entities, seen)
  end.

(** The entity list built by [main] (lines 193-201). *)
Definition main_entities (raw_entries : list raw_entry) : outcome (list entity) :=
  let* (entities, _) := for_each dedup_step ([], ∅) raw_entries in
  Ret entities.

(* ===================================================================== *)
(** * Vocabulary of the properties *)
(* ===================================================================== *)

(** [sub] occurs in [s] at index [i]. *)
Definition occurs_at (sub s : str) (i : nat) : Prop :=
  exists pre post, s = pre ++ sub ++ post /\ length pre = i.

(** Every single quote written twice, all other characters kept. *)
Definition double_quotes (s : str) : str :=
  flat_map (fun c => if decide (c = SQUOTE) then [SQUOTE; SQUOTE] else [c]) s.

(** The items, each with its single quotes doubled and between double
    quotes, with a comma between one item and the next. *)
Fixpoint quoted_items (items : list str) : str :=
  match items with
  | [] => []
  | a :: rest =>
      DQUOTE :: double_quotes a
      ++ DQUOTE :: match rest with
                   | [] => []
                   | _ :: _ => L1 "," :: quoted_items rest
                   end
  end.

(** A brace-delimited, comma-separated list of double-quoted items. *)
Definition array_literal (items : list str) : str :=
  L1 "{" :: quoted_items items ++ [L1 "}"].

(** The row of an entity, written out. *)
Definition sql_row (e : entity) : str :=
  txt "  ('" ++ double_quotes (brand e) ++ txt "', '" ++ array_literal (aliases e)
  ++ txt "', '{" ++ [DQUOTE] ++ txt "general" ++ [DQUOTE] ++ txt "}', '{"
  ++ [DQUOTE] ++ txt "CN" ++ [DQUOTE] ++ txt "}', 'high', '{"
  ++ [DQUOTE] ++ txt "UFLPA" ++ [DQUOTE] ++ txt "}', '"
  ++ txt "Listed on UFLPA Entity List. Subject to rebuttable presumption of forced labor under 19 U.S.C. "
  ++ [L1 "167"%char] ++ txt " 1307."
  ++ txt "', '2025-01-15')".

(** The rows, with a comma and a line break between one row and the
    next. *)
Fixpoint sql_rows (entities : list entity) : str :=
  match entities with
  | [] => []
  | e :: rest =>
      sql_row e
      ++ match rest with
         | [] => []
         | _ :: _ => L1 "," :: NL :: sql_rows rest
         end
  end.

(** The whole statement, written out line by line. *)
Definition sql_text (entities : list entity) : str :=
  txt "-- UFLPA Entity List (January 15, 2025)" ++ [NL]
  ++ txt "-- Generated by scripts/seed_uflpa.py" ++ [NL]
  ++ txt "-- " ++ str_of_nat (length entities) ++ txt " entities" ++ [NL]
  ++ [NL]
  ++ txt "INSERT INTO companies (brand, aliases, product_categories, countries_of_origin, risk_level, sources, reason, last_updated)" ++ [NL]
  ++ txt "VALUES" ++ [NL]
  ++ sql_rows entities ++ txt ";".

(** [kw] occurs in [s]; and [kw] occurs in [s] up to [str.lower], the
    case-insensitive comparison that the script itself uses for its
    de-duplication key. *)
Definition contains (kw s : str) : Prop :=
  exists pre post, s = pre ++ kw ++ post.

Definition contains_lower (kw s : str) : Prop :=
  exists pre mid post, s = pre ++ mid ++ post /\ lower mid = lower kw.

(** The letter of a character, with the case set aside the way
    [re.IGNORECASE] sets it aside: the lower-case form under the simple
    case mapping, where the dotless U+0131 counts as [i] and the long
    U+017F as [s]. *)
Definition caseless (c : char) : char :=
  let l := tolower c in
  if decide (l = DotlessI) then L1 "i"
  else if decide (l = LongS) then L1 "s"
  else l.

(** [kw] occurs in [s] up to that equivalence, character by character. *)
Definition contains_ignorecase (kw s : str) : Prop :=
  exists pre mid post, s = pre ++ mid ++ post /\ map caseless mid = map caseless kw.

(** Every match of the pattern sets group 1. *)
Fixpoint sets_group (r : regex) : bool :=
  match r with
  | Grp _ => true
  | Seq r1 r2 => sets_group r1 || sets_group r2
  | Alt r1 r2 => sets_group r1 && sets_group r2
  | _ => false
  end.

(** The pattern may match the empty string (a safe over-estimate). *)
Fixpoint nullable (r : regex) : bool :=
  match r with
  | Lit _ | Cls _ => false
  | Seq r1 r2 => nullable r1 && nullable r2
  | Alt r1 r2 => nullable r1 || nullable r2
  | Grp r1 => nullable r1
  | Eps | Bol | Opt _ | Many _ | Few _ => true
  end.

(** [s] begins with the literal run [w], under IGNORECASE when [ic]. *)
Fixpoint starts_lit (ic : bool) (w s : str) {struct w} : bool :=
  match w, s with
  | [], _ => true
  | c :: w', d :: s' => lit_match ic c d && starts_lit ic w' s'
  | _ :: _, [] => false
  end.

(** The brand that the parser derives from a whitespace-collapsed input:
    the text before the alias clause, or else the whole input, with the
    trailing punctuation stripped and the whitespace collapsed. *)
Definition derived_brand (raw : str) : str :=
  collapse
    match re_search true ALIAS_PATTERN raw with
    | Some aka_match =>
        strip (rstrip (txt ".,;(") (strip (take (m_start aka_match) raw)))
    | None => strip (rstrip (txt ".,;") (strip raw))
    end.

(** The aliases that the parser derives from a whitespace-collapsed
    input. *)
Definition derived_aliases (raw : str) : list str :=
  match re_search true ALIAS_PATTERN raw with
  | Some aka_match =>
      match group1 aka_match raw with
      | Some raw_aliases => split_aliases raw_aliases
      | None => []
      end
  | None => []
  end.

(** The brand names one of the parser's keywords up to [str.lower]; and
    up to the equivalence of [re.IGNORECASE]. *)
Definition has_keyword_lower (b : str) : Prop :=
  exists kw, In kw PARSER_KEYWORDS /\ contains_lower kw b.

Definition has_keyword (b : str) : Prop :=
  exists kw, In kw PARSER_KEYWORDS /\ contains_ignorecase kw b.

(** The de-duplication key of a record. *)
Definition dedup_key (e : entity) : str := lower (brand e).

(** The records that the parser returns for the raw entries, in the order
    of the entries. *)
Definition parsed_records (raw_entries : list raw_entry) : list entity :=
  omap (fun re => match parse_entry (snd re) with
                  | Ret (Some e) => Some e
                  | _ => None
                  end) raw_entries.

(** The records of [l], in order, whose key is the key of no record
    before them in [earlier ++ l]. *)
Definition first_seen_after (earlier l : list entity) : list entity :=
  omap id (imap (fun i e =>
                   if decide (dedup_key e ∈ dedup_key <$> (earlier ++ take i l))
                   then None else Some e) l).

Definition first_seen (l : list entity) : list entity := first_seen_after [] l.

(** What the segmenter guarantees of a list entry: it begins with an
    upper-case character, contains one of the segmenter's keywords in
    their own case, and begins with neither ["The "] nor ["These "]. *)
Definition list_entry_ok (e : str) : Prop :=
  (exists c rest, e = c :: rest /\ isupper c = true)
  /\ (exists kw, In kw KEYWORDS /\ contains kw e)
  /\ (forall post, e <> txt "The " ++ post)
  /\ (forall post, e <> txt "These " ++ post).

(** The invariant of the loop: the list entries emitted so far and the
    entry in progress are good. *)
Definition accumulator_ok (st : list raw_entry * option str) : Prop :=
  (forall e, In (tag_list, e) (fst st) -> list_entry_ok e)
  /\ (forall s, snd st = Some s -> list_entry_ok s).

(** A string without white space at either end. *)
Definition trimmed (s : str) : Prop :=
  forall c, head s = Some c \/ last s = Some c -> isspace c = false.

(** A string without two white-space characters in a row. *)
Definition no_ws_run (s : str) : Prop :=
  forall pre c d post,
    s = pre ++ c :: d :: post -> isspace c = true -> isspace d = true -> False.

(** The length of the white-space run at the head of a string. *)
Fixpoint ws_run (s : str) : nat :=
  match s with
  | c :: s' => if isspace c then S (ws_run s') else 0
  | [] => 0
  end.

(** Every white-space run replaced by one space; [in_run] tells that the
    character before was white space. *)
Fixpoint squeeze (in_run : bool) (s : str) : str :=
  match s with
  | [] => []
  | c :: s' =>
      if isspace c then
        if in_run then squeeze true s' else SP :: squeeze true s'
      else c :: squeeze false s'
  end.

(** Every white-space character of the string is a space that follows
    no white space; [in_run] tells that the character before was white
    space. *)
Fixpoint tidy_from (in_run : bool) (s : str) : Prop :=
  match s with
  | [] => True
  | c :: s' =>
      if isspace c then c = SP /\ in_run = false /\ tidy_from true s'
      else tidy_from false s'
  end.

(** The pattern cannot fail: it matches, possibly the empty string, at
    every offset of every subject (a safe under-estimate). *)
Fixpoint infallible (r : regex) : bool :=
  match r with
  | Eps | Opt _ | Many _ | Few _ => true
  | Seq r1 r2 => infallible r1 && infallible r2
  | Alt r1 r2 => infallible r1 || infallible r2
  | Grp r1 => infallible r1
  | Lit _ | Cls _ | Bol => false
  end.

(** [s] read as the body of a single-quoted SQL literal: every single
    quote is followed by a second one. *)
Fixpoint literal_body (s : str) : bool :=
  match s with
  | [] => true
  | c :: s' =>
      if char_eqb c SQUOTE then
        match s' with
        | d :: s'' => char_eqb d SQUOTE && literal_body s''
        | [] => false
        end
      else literal_body s'
  end.

(** The value of such a literal: every pair of single quotes read as
    one. *)
Fixpoint literal_value (s : str) : str :=
  match s with
  | [] => []
  | c :: s' =>
      if char_eqb c SQUOTE then
        match s' with
        | _ :: s'' => c :: literal_value s''
        | [] => [c]
        end
      else c :: literal_value s'
  end.

(** [e] is a run of consecutive lines of [lines], joined by spaces. *)
Definition segment_of (lines : list str) (e : str) : Prop :=
  exists before seg after,
    lines = before ++ seg ++ after /\ seg <> [] /\ e = join (txt " ") seg.

(** The entries of the bullet pass (lines 65-72). *)
Definition bullet_entries (text : str) : list raw_entry :=
  flat_map bullet_entry (tail (split Bullet text)).

(** The lines that the accumulator is run on (lines 81-83), for a match
    of the section header. *)
Definition list_lines (text : str) (section_match : rmatch) : list str :=
  map strip (List.filter (fun l => nonempty (strip l))
                         (split NL (clean_text (drop (m_start section_match) text)))).

(** The state of the accumulator after the lines [done]: the entries
    [entries0] it started from, followed by list entries that are segments
    of [done]; the entry in progress is a non-empty segment that ends
    [done]. *)
Definition accumulator_segments (done : list str) (entries0 : list raw_entry)
           (st : list raw_entry * option str) : Prop :=
  (exists ls, fst st = entries0 ++ ls
              /\ Forall (fun re => fst re = tag_list /\ segment_of done (snd re)) ls)
  /\ forall s, snd st = Some s ->
               s <> [] /\ exists before seg,
                           done = before ++ seg /\ seg <> [] /\ s = join (txt " ") seg.

(* ===================================================================== *)
(** * Properties *)
(* ===================================================================== *)

(** ** Characters and prefixes *)

Lemma ord_inj (c d : char) : ord c = ord d -> c = d.
Proof.
  destruct c as [a| | | | | |], d as [b| | | | | |]; simpl; intros H;
    try reflexivity; try discriminate H;
    try (pose proof (N_ascii_bounded a); lia);
    try (pose proof (N_ascii_bounded b); lia).
  f_equal. rewrite <- (ascii_N_embedding a), <- (ascii_N_embedding b).
  now rewrite H.
Qed.

Lemma char_eqb_eq (c d : char) : char_eqb c d = true <-> c = d.
Proof.
  unfold char_eqb. rewrite N.eqb_eq. split.
  - apply ord_inj.
  - now intros ->.
Qed.

Lemma char_eqb_refl (c : char) : char_eqb c c = true.
Proof. now apply char_eqb_eq. Qed.

Lemma startswith_prefix (s pre : str) :
  startswith s pre = true <-> exists post, s = pre ++ post.
Proof.
  revert s. induction pre as [|p pre IH]; intros s; simpl.
  - split; eauto.
  - destruct s as [|c s].
    + split; [discriminate | intros [post H]; discriminate].
    + rewrite andb_true_iff, char_eqb_eq, IH. split.
      * intros [-> [post ->]]. eauto.
      * intros [post H]. injection H as -> ->. eauto.
Qed.

(** ** The section locator *)

Lemma occurs_at_0 (sub s : str) :
  occurs_at sub s 0 <-> startswith s sub = true.
Proof.
  rewrite startswith_prefix. split.
  - intros (pre & post & -> & Hlen). destruct pre; [eauto | discriminate].
  - intros [post ->]. now exists [], post.
Qed.

Lemma occurs_at_S (sub : str) (c : char) (s : str) (i : nat) :
  occurs_at sub (c :: s) (S i) <-> occurs_at sub s i.
Proof.
  split.
  - intros (pre & post & H & Hlen). destruct pre as [|d pre]; [discriminate|].
    injection H as _ ->. injection Hlen as <-. now exists pre, post.
  - intros (pre & post & -> & <-). now exists (c :: pre), post.
Qed.

Lemma occurs_at_nil (sub : str) (i : nat) :
  sub <> [] -> ~ occurs_at sub [] i.
Proof.
  intros Hne (pre & post & H & _). destruct pre, sub; try discriminate.
  now apply Hne.
Qed.

Lemma occurs_at_drop (sub s : str) (i : nat) :
  occurs_at sub s i <-> i <= length s /\ startswith (drop i s) sub = true.
Proof.
  revert i. induction s as [|c s IH]; intros [|i].
  - rewrite occurs_at_0. simpl. intuition lia.
  - split.
    + intros (pre & post & H & Hlen). destruct pre; discriminate.
    + simpl. lia.
  - rewrite occurs_at_0. simpl. intuition lia.
  - rewrite occurs_at_S, IH. simpl. intuition lia.
Qed.

(** [rfind] returns the greatest index of an occurrence, or [-1] when
    there is none. *)
Lemma rfind_spec (sub s : str) :
  sub <> [] ->
  (rfind s sub = (-1)%Z /\ forall i, ~ occurs_at sub s i)
  \/ (exists i, rfind s sub = Z.of_nat i /\ occurs_at sub s i
                /\ forall j, occurs_at sub s j -> j <= i).
Proof.
  intros Hne. induction s as [|c s IH].
  - left. simpl. destruct sub as [|p sub]; [congruence|]. simpl.
    split; [reflexivity | intros i; now apply occurs_at_nil].
  - cbn [rfind].
    destruct IH as [[Hr Hno] | (i & Hr & Hocc & Hmax)].
    + rewrite Hr. change (0 <=? -1)%Z with false. cbv iota.
      destruct (startswith (c :: s) sub) eqn:Hsw.
      * right. exists 0. split; [reflexivity|]. split.
        -- now apply occurs_at_0.
        -- intros [|j] Hj; [lia|]. apply occurs_at_S in Hj. now apply Hno in Hj.
      * left. split; [reflexivity|]. intros [|j] Hj.
        -- apply occurs_at_0 in Hj. congruence.
        -- apply occurs_at_S in Hj. now apply Hno in Hj.
    + rewrite Hr. destruct (0 <=? Z.of_nat i)%Z eqn:Hle; [|lia].
      right. exists (S i). split; [lia|]. split.
      * now apply occurs_at_S.
      * intros [|j] Hj; [lia|]. apply occurs_at_S in Hj. apply Hmax in Hj. lia.
Qed.

(** C2. With the marker ["Appendix 1"]: when the marker occurs in the
    text, [get_entity_list_text] returns the text from the last occurrence
    of the marker to the end; when it does not occur, it returns the text
    unchanged. *)
Theorem get_entity_list_text_last_occurrence (full_text : str) :
  (forall i,
      occurs_at marker full_text i ->
      (forall j, occurs_at marker full_text j -> j <= i) ->
      get_entity_list_text full_text = drop i full_text)
  /\ ((forall i, ~ occurs_at marker full_text i) ->
      get_entity_list_text full_text = full_text).
Proof.
  unfold get_entity_list_text.
  destruct (rfind_spec marker full_text)
    as [[Hr Hno] | (i & Hr & Hocc & Hmax)]; [discriminate | |].
  - rewrite Hr. split; [|reflexivity].
    intros i Hi _. now apply Hno in Hi.
  - rewrite Hr. split.
    + intros i' Hi' Hmax'.
      assert (i' = i) as -> by (apply Hmax in Hi'; apply Hmax' in Hocc; lia).
      destruct (Z.of_nat i =? -1)%Z eqn:E; [lia|].
      unfold slice_from. destruct (Z.of_nat i <? 0)%Z eqn:E'; [lia|].
      now rewrite Nat2Z.id.
    + intros Hno. now apply Hno in Hocc.
Qed.

Lemma get_entity_list_text_last_occurrence_witness :
  get_entity_list_text (txt "See Appendix 1 below. Appendix 1 Entities")
    = txt "Appendix 1 Entities"
  /\ get_entity_list_text (txt "no marker here") = txt "no marker here".
Proof.
  split.
  - apply (proj1 (get_entity_list_text_last_occurrence
                    (txt "See Appendix 1 below. Appendix 1 Entities")) 22).
    + exists (txt "See Appendix 1 below. "), (txt " Entities"). split; reflexivity.
    + intros j Hj. apply occurs_at_drop in Hj. destruct Hj as [Hlen Hsw].
      do 23 (destruct j as [|j]; [lia|]).
      do 19 (destruct j as [|j]; [vm_compute in Hsw; discriminate Hsw|]).
      vm_compute in Hlen. lia.
  - apply (proj2 (get_entity_list_text_last_occurrence (txt "no marker here"))).
    intros j Hj. apply occurs_at_drop in Hj. destruct Hj as [Hlen Hsw].
    do 15 (destruct j as [|j]; [vm_compute in Hsw; discriminate Hsw|]).
    vm_compute in Hlen. lia.
Defined.

(** ** Worked examples of the parser and the segmenter *)

(** C1, as the code has it: for the input
    ["Acme Textile Co. (also known as Acme Textiles; and Acme Tex)"] the
    parser returns the brand ["Acme Textile Co"], the trailing period
    being stripped with the rest of the trailing punctuation, and the
    aliases ["Acme Textiles"] and ["Acme Tex"], in that order. *)
Theorem parse_entry_acme :
  parse_entry (txt "Acme Textile Co. (also known as Acme Textiles; and Acme Tex)")
  = Ret (Some (mk_entity (txt "Acme Textile Co")
                         [txt "Acme Textiles"; txt "Acme Tex"])).
Proof. vm_compute. reflexivity. Qed.

(** The brand of that record is not ["Acme Textile Co."]. *)
Lemma acme_brand_keeps_no_period :
  parse_entry (txt "Acme Textile Co. (also known as Acme Textiles; and Acme Tex)")
  <> Ret (Some (mk_entity (txt "Acme Textile Co.")
                          [txt "Acme Textiles"; txt "Acme Tex"])).
Proof. intros H. vm_compute in H. discriminate H. Qed.

(** C7. Fed the lines ["Beta Holdings Group"] and
    ["(a subsidiary of Gamma)"], the accumulator of the list section
    emits the single list entry
    ["Beta Holdings Group (a subsidiary of Gamma)"]; so does the whole
    segmenter on a list section made of these two lines. *)
Theorem accumulate_continuation_example :
  accumulate [] [txt "Beta Holdings Group"; txt "(a subsidiary of Gamma)"]
  = Ret [(tag_list, txt "Beta Holdings Group (a subsidiary of Gamma)")]
  /\ split_into_raw_entries
       (txt "UFLPA Section 2(d)(2)(B)(i) A List of Entities" ++ [NL]
        ++ txt "Beta Holdings Group" ++ [NL] ++ txt "(a subsidiary of Gamma)")
     = Ret [(tag_list, txt "Beta Holdings Group (a subsidiary of Gamma)")].
Proof. split; vm_compute; reflexivity. Qed.

(** ** The SQL renderer *)

Lemma escape_sql_double_quotes (s : str) : escape_sql s = double_quotes s.
Proof.
  unfold escape_sql, replace.
  induction s as [|c s IH]; [reflexivity|].
  cbn [replace_from double_quotes flat_map].
  change (startswith (c :: s) (txt "'")) with (char_eqb c SQUOTE && true).
  rewrite andb_true_r. change (length (txt "'") - 1) with 0.
  fold (double_quotes s). rewrite IH.
  destruct (decide (c = SQUOTE)) as [->|Hne].
  - reflexivity.
  - destruct (char_eqb c SQUOTE) eqn:E; [|reflexivity].
    apply char_eqb_eq in E. contradiction.
Qed.

Lemma join_cons_cons (sep x y : str) (l : list str) :
  join sep (x :: y :: l) = x ++ sep ++ join sep (y :: l).
Proof. reflexivity. Qed.

Lemma render_aliases_array_literal (al : list str) :
  render_aliases al = array_literal al.
Proof.
  unfold render_aliases, array_literal. change (txt "{" ++ ?x) with (L1 "{" :: x).
  do 2 f_equal.
  induction al as [|a rest IH]; [reflexivity|].
  destruct rest as [|b rest].
  - cbn [map join quoted_items]. unfold dquoted.
    now rewrite escape_sql_double_quotes.
  - cbn [map]. rewrite join_cons_cons. cbn [map] in IH. rewrite IH.
    cbn [quoted_items]. unfold dquoted. rewrite escape_sql_double_quotes.
    cbn [app]. now rewrite <- !app_assoc.
Qed.

Lemma render_row_sql_row (e : entity) : render_row e = sql_row e.
Proof.
  unfold render_row, sql_row.
  rewrite escape_sql_double_quotes, render_aliases_array_literal.
  replace (escape_sql REASON)
    with (txt "Listed on UFLPA Entity List. Subject to rebuttable presumption of forced labor under 19 U.S.C. "
          ++ [L1 "167"%char] ++ txt " 1307.")
    by (vm_compute; reflexivity).
  unfold dquoted. rewrite <- !app_assoc. reflexivity.
Qed.

Lemma join_rows (entities : list entity) :
  join (txt "," ++ [NL]) (map render_row entities) = sql_rows entities.
Proof.
  induction entities as [|e rest IH]; [reflexivity|].
  destruct rest as [|e' rest].
  - cbn [map join sql_rows]. now rewrite render_row_sql_row, app_nil_r.
  - cbn [map]. rewrite join_cons_cons. cbn [map] in IH. rewrite IH.
    cbn [sql_rows]. now rewrite render_row_sql_row.
Qed.

(** C6. The entity with brand ["O'Brien Mining"] and no alias is
    rendered as one row whose brand is ['O''Brien Mining'] and whose alias
    array is [{}]; two aliases are rendered between braces, each between
    double quotes, with a comma between them, and two rows with a comma
    and a line break between them; in general [escape_sql] only doubles
    the single quotes, and the statement is the text written out in
    [sql_text]. *)
Theorem generate_sql_obrien :
  generate_sql [mk_entity (txt "O'Brien Mining") []]
  = txt "-- UFLPA Entity List (January 15, 2025)" ++ [NL]
    ++ txt "-- Generated by scripts/seed_uflpa.py" ++ [NL]
    ++ txt "-- 1 entities" ++ [NL]
    ++ [NL]
    ++ txt "INSERT INTO companies (brand, aliases, product_categories, countries_of_origin, risk_level, sources, reason, last_updated)" ++ [NL]
    ++ txt "VALUES" ++ [NL]
    ++ txt "  ('O''Brien Mining', '{}', '{" ++ [DQUOTE] ++ txt "general" ++ [DQUOTE]
    ++ txt "}', '{" ++ [DQUOTE] ++ txt "CN" ++ [DQUOTE] ++ txt "}', 'high', '{"
    ++ [DQUOTE] ++ txt "UFLPA" ++ [DQUOTE]
    ++ txt "}', 'Listed on UFLPA Entity List. Subject to rebuttable presumption of forced labor under 19 U.S.C. "
    ++ [L1 "167"%char] ++ txt " 1307.', '2025-01-15');"
  /\ generate_sql [ mk_entity (txt "O'Brien Mining") [txt "O'Brien"; txt "OBM"];
                    mk_entity (txt "Beta Group") [] ]
     = txt "-- UFLPA Entity List (January 15, 2025)" ++ [NL]
       ++ txt "-- Generated by scripts/seed_uflpa.py" ++ [NL]
       ++ txt "-- 2 entities" ++ [NL]
       ++ [NL]
       ++ txt "INSERT INTO companies (brand, aliases, product_categories, countries_of_origin, risk_level, sources, reason, last_updated)" ++ [NL]
       ++ txt "VALUES" ++ [NL]
       ++ txt "  ('O''Brien Mining', '{" ++ [DQUOTE] ++ txt "O''Brien" ++ [DQUOTE]
       ++ txt "," ++ [DQUOTE] ++ txt "OBM" ++ [DQUOTE] ++ txt "}', '{"
       ++ [DQUOTE] ++ txt "general" ++ [DQUOTE]
       ++ txt "}', '{" ++ [DQUOTE] ++ txt "CN" ++ [DQUOTE] ++ txt "}', 'high', '{"
       ++ [DQUOTE] ++ txt "UFLPA" ++ [DQUOTE]
       ++ txt "}', 'Listed on UFLPA Entity List. Subject to rebuttable presumption of forced labor under 19 U.S.C. "
       ++ [L1 "167"%char] ++ txt " 1307.', '2025-01-15')," ++ [NL]
       ++ txt "  ('Beta Group', '{}', '{" ++ [DQUOTE] ++ txt "general" ++ [DQUOTE]
       ++ txt "}', '{" ++ [DQUOTE] ++ txt "CN" ++ [DQUOTE] ++ txt "}', 'high', '{"
       ++ [DQUOTE] ++ txt "UFLPA" ++ [DQUOTE]
       ++ txt "}', 'Listed on UFLPA Entity List. Subject to rebuttable presumption of forced labor under 19 U.S.C. "
       ++ [L1 "167"%char] ++ txt " 1307.', '2025-01-15');"
  /\ (forall s, escape_sql s = double_quotes s)
  /\ (forall entities, generate_sql entities = sql_text entities).
Proof.
  split; [vm_compute; reflexivity|].
  split; [vm_compute; reflexivity|].
  split; [exact escape_sql_double_quotes|].
  intros entities. unfold generate_sql, sql_text. cbn [app].
  rewrite !join_cons_cons. cbn [join]. rewrite join_rows.
  rewrite <- !app_assoc. reflexivity.
Qed.

(** ** The matcher *)

(** The two ways of reaching the continuation at once: without a
    character, and with one. *)
Ltac stay_put g :=
  exists 0, g; rewrite Nat.add_0_r; simpl;
  repeat split; first [ lia | assumption | easy ].

Ltac step_one g :=
  exists 1, g; rewrite Nat.add_1_r; simpl;
  repeat split; first [ lia | assumption | easy ].

Section ExecFacts.
Context {R : Type} (ic : bool).
Implicit Types (k : nat -> str -> option (nat * nat) -> option R).

(** Whatever the matcher returns was returned by the continuation, at an
    offset further into the subject; a group that was set stays set, and
    a pattern that is not nullable has consumed a character. *)
Lemma exec_sound (r : regex) :
  forall pos s g k x,
    exec ic r pos s g k = Some x ->
    exists n g',
      n <= length s /\ k (pos + n) (drop n s) g' = Some x
      /\ (is_Some g -> is_Some g') /\ (sets_group r = true -> is_Some g')
      /\ (nullable r = false -> 0 < n).
Proof.
  induction r as [ | c | p | | r1 IH1 r2 IH2 | r1 IH1 r2 IH2 | r1 IH1 | p | p | r1 IH1 ];
    intros pos s g k x H; cbn [exec] in H.
  - stay_put g.
  - destruct s as [|d s']; [discriminate|].
    destruct (lit_match ic c d); [|discriminate]. step_one g.
  - destruct s as [|d s']; [discriminate|].
    destruct (p d); [|discriminate]. step_one g.
  - destruct (Nat.eqb pos 0); [|discriminate]. stay_put g.
  - apply IH1 in H as (n1 & g1 & Hn1 & H & Hk1 & Hs1 & Hp1).
    apply IH2 in H as (n2 & g2 & Hn2 & H & Hk2 & Hs2 & Hp2).
    rewrite length_drop in Hn2. rewrite drop_drop, <- Nat.add_assoc in H.
    exists (n1 + n2), g2. cbn [sets_group nullable].
    rewrite orb_true_iff, andb_false_iff.
    repeat split; [lia | exact H | tauto | tauto |].
    intros [E|E]; [apply Hp1 in E | apply Hp2 in E]; lia.
  - destruct (exec ic r1 pos s g k) eqn:E1.
    + injection H as ->. apply IH1 in E1 as (n & g' & ? & ? & ? & ? & ?).
      exists n, g'. cbn [sets_group nullable].
      rewrite andb_true_iff, orb_false_iff. tauto.
    + apply IH2 in H as (n & g' & ? & ? & ? & ? & ?).
      exists n, g'. cbn [sets_group nullable].
      rewrite andb_true_iff, orb_false_iff. tauto.
  - destruct (exec ic r1 pos s g k) eqn:E1.
    + injection H as ->. apply IH1 in E1 as (n & g' & ? & ? & ? & ? & ?).
      exists n, g'. simpl. repeat split; easy.
    + stay_put g.
  - revert pos H. induction s as [|d s' IHs]; intros pos H; [stay_put g|].
    destruct (p d); [|stay_put g].
    match type of H with
    | match ?e with _ => _ end = _ => destruct e eqn:E
    end; [|stay_put g].
    injection H as ->. apply IHs in E as (n & g' & ? & Hk & ? & ? & ?).
    exists (S n), g'. rewrite Nat.add_succ_r. simpl.
    repeat split; [lia | exact Hk | easy | easy | easy].
  - revert pos H. induction s as [|d s' IHs]; intros pos H.
    + destruct (k pos [] g) eqn:E; [|discriminate]. injection H as ->. stay_put g.
    + destruct (k pos (d :: s') g) eqn:E; [injection H as ->; stay_put g|].
      destruct (p d); [|discriminate].
      apply IHs in H as (n & g' & ? & Hk & ? & ? & ?).
      exists (S n), g'. rewrite Nat.add_succ_r. simpl.
      repeat split; [lia | exact Hk | easy | easy | easy].
  - apply IH1 in H as (n & g' & ? & Hk & ? & ? & ?).
    exists n, (Some (pos, pos + n)). simpl. repeat split; eauto.
Qed.

(** A literal run is matched character by character. *)
Lemma exec_lits (w : str) :
  forall pos s g k,
    exec ic (lits w) pos s g k
    = if starts_lit ic w s then k (pos + length w) (drop (length w) s) g else None.
Proof.
  unfold lits. induction w as [|c w IH]; intros pos s g k.
  - simpl. now rewrite Nat.add_0_r.
  - cbn [map cat exec starts_lit]. destruct s as [|d s']; [reflexivity|].
    destruct (lit_match ic c d); [|reflexivity].
    rewrite IH. cbn [andb length drop]. now rewrite Nat.add_succ_r.
Qed.

End ExecFacts.

Lemma match_at_start (ic : bool) (r : regex) (pos : nat) (s : str) (m : rmatch) :
  match_at ic r pos s = Some m -> m_start m = pos.
Proof.
  unfold match_at. intros H.
  apply exec_sound in H as (n & g' & _ & H & _). now injection H as <-.
Qed.

Lemma match_at_span (ic : bool) (r : regex) (pos : nat) (s : str) (m : rmatch) :
  sets_group r = true -> match_at ic r pos s = Some m -> is_Some (m_span1 m).
Proof.
  unfold match_at. intros Hg H.
  apply exec_sound in H as (n & g' & _ & H & _ & Hs & _). injection H as <-. auto.
Qed.

(** [re.search] succeeds exactly when the pattern matches at some offset,
    and its match is a match at its own start. *)
Lemma search_from_match_at (ic : bool) (r : regex) (s : str) :
  forall pos m,
    search_from ic r pos s = Some m ->
    exists i, i <= length s /\ match_at ic r (pos + i) (drop i s) = Some m.
Proof.
  induction s as [|c s IH]; intros pos m H; cbn [search_from] in H.
  - destruct (match_at ic r pos []) eqn:E; [|discriminate]. injection H as ->.
    exists 0. rewrite Nat.add_0_r. split; [simpl; lia | exact E].
  - destruct (match_at ic r pos (c :: s)) eqn:E.
    + injection H as ->. exists 0. rewrite Nat.add_0_r. split; [simpl; lia | exact E].
    + apply IH in H as (i & Hi & H). exists (S i).
      rewrite Nat.add_succ_r. split; [simpl; lia | exact H].
Qed.

Lemma search_from_complete (ic : bool) (r : regex) (s : str) :
  forall pos i,
    i <= length s ->
    is_match (match_at ic r (pos + i) (drop i s)) = true ->
    is_match (search_from ic r pos s) = true.
Proof.
  induction s as [|c s IH]; intros pos i Hi H; cbn [search_from].
  - assert (i = 0) as -> by (simpl in Hi; lia).
    rewrite Nat.add_0_r in H. simpl in H.
    destruct (match_at ic r pos []); [reflexivity | discriminate].
  - destruct (match_at ic r pos (c :: s)) eqn:E; [reflexivity|].
    destruct i as [|i].
    + rewrite Nat.add_0_r in H. simpl in H. rewrite E in H. discriminate.
    + apply (IH (S pos) i); [simpl in Hi; lia|].
      now rewrite Nat.add_succ_r in H.
Qed.

(** At its first offset [re.search] is [re.match]. *)
Lemma re_search_at_0 (ic : bool) (r : regex) (s : str) (m : rmatch) :
  re_match ic r s = Some m -> re_search ic r s = Some m.
Proof.
  unfold re_match, re_search. intros H.
  destruct s; cbn [search_from]; now rewrite H.
Qed.

(** A match of a pattern that is not nullable is not empty. *)
Lemma match_at_nonempty (ic : bool) (r : regex) (pos : nat) (s : str) (m : rmatch) :
  nullable r = false -> match_at ic r pos s = Some m -> pos < m_end m.
Proof.
  unfold match_at. intros Hn H.
  apply exec_sound in H as (n & g' & _ & H & _ & _ & Hp).
  injection H as <-. cbn [m_end]. apply Hp in Hn. lia.
Qed.

(** The patterns handed to [re.sub] and [re.split] are not nullable. *)
Lemma substituted_patterns_not_nullable :
  Forall (fun r => nullable r = false)
         [WS_RUN; FR_HEADER; VERDATE; LOTTER; SECTION_CUT; ALIAS_SEP].
Proof. repeat constructor. Qed.

Lemma re_search_span (ic : bool) (r : regex) (s : str) (m : rmatch) :
  sets_group r = true -> re_search ic r s = Some m -> is_Some (m_span1 m).
Proof.
  intros Hg H. apply search_from_match_at in H as (i & _ & H).
  now apply match_at_span in H.
Qed.

(** ** Keyword searches *)

Lemma match_at_alts_lits (ic : bool) (pos : nat) (s : str) (ws : list str) :
  forall w,
    is_match (match_at ic (alts (lits w) (map lits ws)) pos s)
    = existsb (fun w => starts_lit ic w s) (w :: ws).
Proof.
  unfold match_at. induction ws as [|w' ws IH]; intros w.
  - cbn [map alts existsb]. rewrite exec_lits, orb_false_r.
    now destruct (starts_lit ic w s).
  - cbn [map alts exec]. rewrite exec_lits.
    cbn [existsb] in *. destruct (starts_lit ic w s); [reflexivity|].
    apply IH.
Qed.

Lemma starts_lit_cs (w s : str) : starts_lit false w s = startswith s w.
Proof.
  revert s. induction w as [|c w IH]; intros [|d s]; simpl; try reflexivity.
  now rewrite IH.
Qed.

Lemma char_eqb_decide (c d : char) : char_eqb c d = bool_decide (c = d).
Proof.
  destruct (char_eqb c d) eqn:E; symmetry.
  - apply bool_decide_eq_true. now apply char_eqb_eq.
  - apply bool_decide_eq_false. intros H. apply char_eqb_eq in H. congruence.
Qed.

(** Under IGNORECASE a literal matches exactly the characters that have
    its letter: equal lower-case forms, or [i] and the dotless U+0131, or
    [s] and the long U+017F. *)
Lemma lit_match_caseless (c d : char) :
  lit_match true c d = true <-> caseless d = caseless c.
Proof.
  unfold lit_match, caseless, ignorecase_fixes, char_in.
  generalize (tolower c) (tolower d). clear c d. intros lo ld.
  rewrite !char_eqb_decide.
  repeat case_bool_decide; repeat case_decide; subst;
    cbn [existsb]; rewrite ?char_eqb_decide, ?orb_false_r, ?orb_true_iff,
                           ?bool_decide_eq_true;
    split; intros; try congruence; try tauto; try discriminate.
  all: intuition congruence.
Qed.

Lemma starts_lit_ci (w s : str) :
  starts_lit true w s = true
  <-> exists mid post, s = mid ++ post /\ map caseless mid = map caseless w.
Proof.
  revert s. induction w as [|c w IH]; intros s.
  - simpl. split; [|reflexivity]. intros _. now exists [], s.
  - destruct s as [|d s]; cbn [starts_lit].
    + split; [discriminate|]. intros (mid & post & H & Hl).
      destruct mid; discriminate.
    + rewrite andb_true_iff, lit_match_caseless, IH. split.
      * intros [Hc (mid & post & -> & Hl)].
        exists (d :: mid), post. split; [reflexivity|]. cbn [map]. now rewrite Hc, Hl.
      * intros (mid & post & H & Hl). destruct mid as [|d' mid]; [discriminate|].
        injection H as -> ->. cbn [map] in Hl. injection Hl as Hc Hl. eauto.
Qed.

Lemma contains_ignorecase_starts_lit (w s : str) :
  contains_ignorecase w s
  <-> exists i, i <= length s /\ starts_lit true w (drop i s) = true.
Proof.
  split.
  - intros (pre & mid & post & -> & Hl). exists (length pre). split.
    + rewrite length_app. lia.
    + rewrite drop_app_length. apply starts_lit_ci. eauto.
  - intros (i & Hi & H). apply starts_lit_ci in H as (mid & post & H & Hl).
    exists (take i s), mid, post. split; [|exact Hl].
    now rewrite <- H, take_drop.
Qed.

Lemma contains_starts_lit (w s : str) :
  contains w s <-> exists i, i <= length s /\ starts_lit false w (drop i s) = true.
Proof.
  split.
  - intros (pre & post & ->). exists (length pre). split.
    + rewrite length_app. lia.
    + rewrite drop_app_length, starts_lit_cs. apply startswith_prefix. eauto.
  - intros (i & Hi & H). rewrite starts_lit_cs in H.
    apply startswith_prefix in H as [post H].
    exists (take i s), post. now rewrite <- H, take_drop.
Qed.

(** [contains] decided by a scan, for closed instances. *)
Lemma contains_scan (w s : str) :
  contains w s
  <-> existsb (fun i => starts_lit false w (drop i s)) (seq 0 (S (length s))) = true.
Proof.
  rewrite contains_starts_lit, existsb_exists. split.
  - intros (i & Hi & H). exists i. split; [apply in_seq; lia | exact H].
  - intros (i & Hi & H). exists i. apply in_seq in Hi. split; [lia | exact H].
Qed.

(** A word that occurs up to [str.lower] has its lower-case form in the
    lower-case form of the string. *)
Lemma contains_lower_in_lower (kw s : str) :
  contains_lower kw s -> contains (lower kw) (lower s).
Proof.
  intros (pre & mid & post & -> & H). exists (lower pre), (lower post).
  unfold lower in *. now rewrite !flat_map_app, H.
Qed.

(** A search for an alternation of literal words succeeds exactly when
    one of the words begins at some offset of the subject. *)
Lemma search_any_of (ic : bool) (ws : list str) (s : str) :
  ws <> [] ->
  is_match (re_search ic (any_of ws) s) = true
  <-> exists w, In w ws /\ exists i, i <= length s /\ starts_lit ic w (drop i s) = true.
Proof.
  intros Hne. destruct ws as [|w0 ws]; [congruence|]. cbn [any_of].
  unfold re_search. split.
  - destruct (search_from ic _ 0 s) as [m|] eqn:E; [|discriminate]. intros _.
    apply search_from_match_at in E as (i & Hi & E).
    assert (Hm : is_match (match_at ic (alts (lits w0) (map lits ws)) (0 + i) (drop i s)) = true)
      by now rewrite E.
    rewrite match_at_alts_lits in Hm. apply existsb_exists in Hm as (w & Hin & Hw).
    eauto.
  - intros (w & Hin & i & Hi & Hw).
    apply (search_from_complete ic _ s 0 i Hi).
    rewrite match_at_alts_lits. apply existsb_exists. eauto.
Qed.

Lemma search_keywords_ci (ws : list str) (s : str) :
  ws <> [] ->
  is_match (re_search true (any_of ws) s) = true
  <-> exists w, In w ws /\ contains_ignorecase w s.
Proof.
  intros Hne. rewrite (search_any_of true ws s Hne).
  split; intros (w & Hin & H); exists w; (split; [exact Hin|]);
    now apply contains_ignorecase_starts_lit.
Qed.

Lemma search_keywords_cs (ws : list str) (s : str) :
  ws <> [] ->
  is_match (re_search false (any_of ws) s) = true
  <-> exists w, In w ws /\ contains w s.
Proof.
  intros Hne. rewrite (search_any_of false ws s Hne).
  split; intros (w & Hin & H); exists w; (split; [exact Hin|]);
    now apply contains_starts_lit.
Qed.

(** ** The entry parser *)

Lemma length_lt_5 (s : str) :
  negb (nonempty s) || Nat.ltb (length s) 5 = Nat.ltb (length s) 5.
Proof. destruct s; reflexivity. Qed.

(** The parser never raises: the three rejections and the record. *)
Lemma parse_entry_unfold (raw : str) :
  parse_entry raw =
  if Nat.ltb (length (collapse raw)) 5 then Ret None
  else if Nat.ltb (length (derived_brand (collapse raw))) 5 then Ret None
  else if negb (is_match (re_search true (any_of PARSER_KEYWORDS)
                                    (derived_brand (collapse raw))))
  then Ret None
  else Ret (Some (mk_entity (derived_brand (collapse raw))
                            (derived_aliases (collapse raw)))).
Proof.
  unfold parse_entry, derived_brand, derived_aliases.
  rewrite length_lt_5.
  destruct (Nat.ltb (length (collapse raw)) 5); [reflexivity|].
  destruct (re_search true ALIAS_PATTERN (collapse raw)) as [m|] eqn:Es.
  - destruct (re_search_span true ALIAS_PATTERN _ m eq_refl Es) as [[a b] Hg].
    unfold group1. rewrite Hg. cbn [bind]. rewrite length_lt_5. reflexivity.
  - cbn [bind]. rewrite length_lt_5. reflexivity.
Qed.

Lemma PARSER_KEYWORDS_nonempty : PARSER_KEYWORDS <> [].
Proof. discriminate. Qed.

(** No keyword occurs up to [str.lower] in ["Kashgar Mıne Works"],
    written with the dotless U+0131. *)
Lemma dotless_mine_no_lower_keyword :
  ~ has_keyword_lower (txt "Kashgar M" ++ [DotlessI] ++ txt "ne Works").
Proof.
  intros (kw & Hin & Hc). apply contains_lower_in_lower, contains_scan in Hc.
  vm_compute in Hin.
  repeat (destruct Hin as [<-|Hin]; [vm_compute in Hc; discriminate Hc|]).
  exact Hin.
Qed.

(** C4, as the code has it: a record returned by the parser has a brand
    that contains one of the keywords of the segmenter or one of
    ["Ninestar"] and ["Camel"] up to the equivalence of [re.IGNORECASE]:
    character by character, equal lower-case forms under the simple case
    mapping, the dotless U+0131 counting as [i] and the long U+017F as
    [s]. *)
Theorem parse_entry_brand_keyword (raw : str) (e : entity) :
  parse_entry raw = Ret (Some e) ->
  exists kw, In kw (KEYWORDS ++ [txt "Ninestar"; txt "Camel"])
             /\ contains_ignorecase kw (brand e).
Proof.
  rewrite parse_entry_unfold. intros H.
  destruct (Nat.ltb (length (collapse raw)) 5); [discriminate|].
  destruct (Nat.ltb (length (derived_brand (collapse raw))) 5); [discriminate|].
  destruct (is_match _) eqn:Ek; [|discriminate].
  injection H as <-. cbn [brand].
  apply (search_keywords_ci _ _ PARSER_KEYWORDS_nonempty) in Ek. exact Ek.
Qed.

Lemma parse_entry_brand_keyword_witness :
  exists kw, In kw (KEYWORDS ++ [txt "Ninestar"; txt "Camel"])
             /\ contains_ignorecase
                  kw (txt "Kashgar M" ++ [CapitalDottedI] ++ txt "NE Works").
Proof.
  apply (parse_entry_brand_keyword
           (txt "  Kashgar  M" ++ [CapitalDottedI] ++ txt "NE Works.")
           (mk_entity (txt "Kashgar M" ++ [CapitalDottedI] ++ txt "NE Works") [])).
  vm_compute. reflexivity.
Defined.

(** The brand of a returned record need not contain a keyword up to
    [str.lower]: ["Kashgar Mıne Works"] is accepted. *)
Lemma parse_entry_brand_without_lower_keyword :
  ~ (forall raw e,
        parse_entry raw = Ret (Some e) ->
        exists kw, In kw (KEYWORDS ++ [txt "Ninestar"; txt "Camel"])
                   /\ contains_lower kw (brand e)).
Proof.
  intros H.
  apply dotless_mine_no_lower_keyword.
  apply (H (txt "Kashgar M" ++ [DotlessI] ++ txt "ne Works")
           (mk_entity (txt "Kashgar M" ++ [DotlessI] ++ txt "ne Works") [])).
  vm_compute. reflexivity.
Qed.

(** C5, as the code has it: the parser never raises.  It returns [None]
    exactly when the collapsed input has fewer than 5 characters (none
    included), or the derived brand has fewer than 5 characters, or the
    derived brand contains none of the keywords up to the equivalence of
    [re.IGNORECASE]; otherwise it returns a record. *)
Theorem parse_entry_rejects_exactly (raw : str) :
  exists o,
    parse_entry raw = Ret o
    /\ (o = None <->
        length (collapse raw) < 5
        \/ length (derived_brand (collapse raw)) < 5
        \/ ~ has_keyword (derived_brand (collapse raw))).
Proof.
  rewrite parse_entry_unfold.
  destruct (Nat.ltb_spec (length (collapse raw)) 5) as [H1|H1].
  { exists None. split; [reflexivity | tauto]. }
  destruct (Nat.ltb_spec (length (derived_brand (collapse raw))) 5) as [H2|H2].
  { exists None. split; [reflexivity | tauto]. }
  pose proof (search_keywords_ci PARSER_KEYWORDS (derived_brand (collapse raw))
                                 PARSER_KEYWORDS_nonempty) as Hk.
  fold (has_keyword (derived_brand (collapse raw))) in Hk.
  destruct (is_match _) eqn:Ek; cbn [negb].
  - eexists. split; [reflexivity|]. split; [discriminate|].
    intros [?|[?|Hn]]; [lia | lia |]. exfalso. apply Hn. now apply Hk.
  - exists None. split; [reflexivity|]. split; [|reflexivity].
    intros _. right. right. intros Hh. apply Hk in Hh. discriminate.
Qed.

(** The parser returns a record for ["Kashgar Mıne Works"], although the
    brand contains no keyword up to [str.lower]. *)
Lemma parse_entry_accepts_without_lower_keyword :
  ~ (forall raw,
        exists o,
          parse_entry raw = Ret o
          /\ (o = None <->
              length (collapse raw) < 5
              \/ length (derived_brand (collapse raw)) < 5
              \/ ~ has_keyword_lower (derived_brand (collapse raw)))).
Proof.
  intros H.
  destruct (H (txt "Kashgar M" ++ [DotlessI] ++ txt "ne Works")) as (o & Ho & Hiff).
  assert (Hb : derived_brand (collapse (txt "Kashgar M" ++ [DotlessI] ++ txt "ne Works"))
               = txt "Kashgar M" ++ [DotlessI] ++ txt "ne Works")
    by (vm_compute; reflexivity).
  rewrite Hb in Hiff.
  assert (Hnone : o = None).
  { apply Hiff. right. right. exact dotless_mine_no_lower_keyword. }
  subst o. vm_compute in Ho. discriminate Ho.
Qed.

(** C10. When the alias pattern matches the collapsed input at its first
    character, the brand before the clause is empty and the parser returns
    [None], whatever the aliases are. *)
Theorem parse_entry_leading_alias_clause (raw : str) :
  is_match (re_match true ALIAS_PATTERN (collapse raw)) = true ->
  parse_entry raw = Ret None.
Proof.
  intros H. rewrite parse_entry_unfold.
  destruct (Nat.ltb (length (collapse raw)) 5); [reflexivity|].
  destruct (re_match true ALIAS_PATTERN (collapse raw)) as [m|] eqn:Em; [|discriminate].
  assert (Hs : m_start m = 0) by (exact (match_at_start _ _ _ _ _ Em)).
  apply re_search_at_0 in Em.
  unfold derived_brand. rewrite Em, Hs. reflexivity.
Qed.

Lemma parse_entry_leading_alias_clause_witness :
  parse_entry (txt "(also known as Acme Mining Corp.; and Acme Holdings Group)")
  = Ret None.
Proof.
  apply parse_entry_leading_alias_clause. vm_compute. reflexivity.
Defined.

(** ** De-duplication *)

Lemma parse_entry_returns (raw : str) : exists o, parse_entry raw = Ret o.
Proof.
  rewrite parse_entry_unfold.
  repeat match goal with |- context [if ?b then _ else _] => destruct b end; eauto.
Qed.

Lemma first_seen_after_nil (earlier : list entity) : first_seen_after earlier [] = [].
Proof. reflexivity. Qed.

Lemma first_seen_after_cons (earlier : list entity) (e : entity) (l : list entity) :
  first_seen_after earlier (e :: l)
  = (if decide (dedup_key e ∈ dedup_key <$> earlier) then [] else [e])
    ++ first_seen_after (earlier ++ [e]) l.
Proof.
  unfold first_seen_after. rewrite imap_cons. cbn [omap list_omap take].
  rewrite app_nil_r.
  assert (Hext : imap ((fun i e0 =>
                          if decide (dedup_key e0 ∈ dedup_key <$> earlier ++ take i (e :: l))
                          then None else Some e0) ∘ S) l
                 = imap (fun i e0 =>
                           if decide (dedup_key e0 ∈ dedup_key <$> (earlier ++ [e]) ++ take i l)
                           then None else Some e0) l).
  { apply imap_ext. intros i x _. cbn. now rewrite <- app_assoc. }
  rewrite Hext.
  destruct (decide (dedup_key e ∈ dedup_key <$> earlier)); reflexivity.
Qed.

(** The keys of the first-seen records are pairwise distinct and new. *)
Lemma first_seen_after_keys (l : list entity) :
  forall earlier,
    NoDup (dedup_key <$> first_seen_after earlier l)
    /\ forall k, k ∈ dedup_key <$> first_seen_after earlier l ->
                 k ∉ dedup_key <$> earlier.
Proof.
  induction l as [|e l IH]; intros earlier.
  - rewrite first_seen_after_nil. split; [constructor|].
    intros k Hk. now apply elem_of_nil in Hk.
  - rewrite first_seen_after_cons.
    destruct (IH (earlier ++ [e])) as [Hnd Hnew].
    assert (Hnew' : forall k, k ∈ dedup_key <$> first_seen_after (earlier ++ [e]) l ->
                              (k ∉ dedup_key <$> earlier) /\ k <> dedup_key e).
    { intros k Hk. apply Hnew in Hk. rewrite fmap_app in Hk.
      apply not_elem_of_app in Hk as [Hk1 Hk2]. split; [exact Hk1|].
      intros ->. apply Hk2. cbn [fmap list_fmap]. now apply list_elem_of_singleton. }
    destruct (decide (dedup_key e ∈ dedup_key <$> earlier)) as [Hin|Hout]; cbn [app].
    + split; [exact Hnd|]. intros k Hk. now apply Hnew'.
    + rewrite fmap_cons. split.
      * constructor; [|exact Hnd]. intros Hk. apply Hnew' in Hk. tauto.
      * intros k Hk. apply elem_of_cons in Hk as [->|Hk]; [exact Hout|].
        now apply Hnew'.
Qed.

(** The loop of [main] from a state whose [seen] holds the keys of the
    records met so far. *)
Lemma dedup_loop (raw_entries : list raw_entry) :
  forall (entities earlier : list entity) (seen : gset str),
    (forall k, k ∈ seen <-> k ∈ dedup_key <$> earlier) ->
    exists seen',
      for_each dedup_step (entities, seen) raw_entries
      = Ret (entities ++ first_seen_after earlier (parsed_records raw_entries), seen').
Proof.
  induction raw_entries as [|[t raw] raw_entries IH]; intros entities earlier seen Hinv.
  - exists seen. cbn. now rewrite app_nil_r.
  - cbn [for_each]. unfold dedup_step at 1. cbn [snd].
    unfold parsed_records. cbn [omap list_omap snd].
    fold (parsed_records raw_entries).
    destruct (parse_entry_returns raw) as [o Ho]. rewrite Ho. cbn [bind].
    destruct o as [e|]; [|now apply IH].
    rewrite first_seen_after_cons. fold (dedup_key e).
    destruct (decide (dedup_key e ∈ seen)) as [Hin|Hout]; cbn [bind].
    + pose proof (proj1 (Hinv _) Hin) as Hin'.
      destruct (decide (dedup_key e ∈ dedup_key <$> earlier)) as [_|Hn];
        [|contradiction].
      cbn [app]. apply IH. intros k.
      rewrite fmap_app, elem_of_app. cbn [fmap list_fmap].
      rewrite list_elem_of_singleton, (Hinv k).
      split; [tauto | intros [?| ->]; tauto].
    + destruct (decide (dedup_key e ∈ dedup_key <$> earlier)) as [Hy|_];
        [exfalso; apply Hout; now apply Hinv|].
      destruct (IH (entities ++ [e]) (earlier ++ [e]) ({[dedup_key e]} ∪ seen))
        as [seen' Hloop].
      * intros k.
        rewrite fmap_app, elem_of_app. cbn [fmap list_fmap].
        rewrite list_elem_of_singleton, elem_of_union, elem_of_singleton, (Hinv k).
        tauto.
      * exists seen'. rewrite Hloop. now rewrite <- app_assoc.
Qed.

(** C3. For every sequence of raw entries the loop of [main] returns a
    list of records whose lower-cased brands are pairwise distinct, made
    of the records parsed from the raw entries, in their order, whose key
    was met for the first time. *)
Theorem main_entities_first_seen (raw_entries : list raw_entry) :
  exists entities,
    main_entities raw_entries = Ret entities
    /\ NoDup ((fun e => lower (brand e)) <$> entities)
    /\ entities = first_seen (parsed_records raw_entries).
Proof.
  unfold main_entities.
  destruct (dedup_loop raw_entries [] [] ∅) as [seen' Hloop].
  { intros k. now rewrite elem_of_empty, elem_of_nil. }
  rewrite Hloop. cbn [bind app].
  exists (first_seen (parsed_records raw_entries)).
  split; [reflexivity|]. split; [|reflexivity].
  apply (first_seen_after_keys (parsed_records raw_entries) []).
Qed.

(** ** The accumulator of the list section *)

Lemma KEYWORDS_nonempty : KEYWORDS <> [].
Proof. discriminate. Qed.

(** A line that passes the new-entry test is a good entry. *)
Lemma starts_entry_ok (c0 : char) (rest : str) :
  starts_entry c0 (c0 :: rest) = true -> list_entry_ok (c0 :: rest).
Proof.
  unfold starts_entry. rewrite !andb_true_iff, !negb_true_iff.
  intros [[[Hup Hkw] Hthe] Hthese]. repeat split.
  - eauto.
  - now apply (search_keywords_cs _ _ KEYWORDS_nonempty).
  - intros post H. assert (Hp : startswith (c0 :: rest) (txt "The ") = true)
      by (apply startswith_prefix; eauto). congruence.
  - intros post H. assert (Hp : startswith (c0 :: rest) (txt "These ") = true)
      by (apply startswith_prefix; eauto). congruence.
Qed.

(** No keyword fits in a proper prefix of ["These "]. *)
Lemma no_keyword_in_short_prefix (n : nat) (s : str) :
  n < 6 -> s = take n (txt "These ") ->
  ~ exists kw, In kw KEYWORDS /\ contains kw s.
Proof.
  intros Hn -> H. apply (search_keywords_cs _ _ KEYWORDS_nonempty) in H.
  do 6 (destruct n as [|n]; [vm_compute in H; discriminate H|]). lia.
Qed.

Lemma prefix_of_app_short (p s t post : str) :
  s ++ t = p ++ post -> length s < length p -> s = take (length s) p.
Proof.
  intros H Hlen. apply (f_equal (take (length s))) in H.
  rewrite take_app_length in H. rewrite take_app_le in H by lia. exact H.
Qed.

Lemma prefix_of_app_long (p s t post : str) :
  s ++ t = p ++ post -> length p <= length s -> exists post', s = p ++ post'.
Proof.
  intros H Hlen. exists (drop (length p) s).
  apply (f_equal (take (length p))) in H.
  rewrite take_app_length, take_app_le in H by lia.
  rewrite <- H at 1. now rewrite take_drop.
Qed.

(** Appending to a good entry leaves it good. *)
Lemma list_entry_ok_app (s t : str) : list_entry_ok s -> list_entry_ok (s ++ t).
Proof.
  intros ((c & rest & -> & Hup) & (kw & Hin & pre & post & Hkw) & Hthe & Hthese).
  repeat split.
  - exists c, (rest ++ t). eauto.
  - exists kw. split; [exact Hin|]. exists pre, (post ++ t).
    rewrite Hkw. now rewrite <- !app_assoc.
  - intros post' H.
    destruct (Nat.le_gt_cases (length (txt "The ")) (length (c :: rest))) as [Hl|Hl].
    + destruct (prefix_of_app_long _ _ _ _ H Hl) as [p' Hp]. now apply Hthe in Hp.
    + apply prefix_of_app_short in H; [|exact Hl].
      apply (no_keyword_in_short_prefix (length (c :: rest)) (c :: rest)).
      * change (length (txt "The ")) with 4 in Hl. lia.
      * rewrite H at 1. change (length (txt "The ")) with 4 in Hl.
        remember (length (c :: rest)) as n.
        do 4 (destruct n as [|n]; [reflexivity|]). lia.
      * exists kw. split; [exact Hin|]. now exists pre, post.
  - intros post' H.
    destruct (Nat.le_gt_cases (length (txt "These ")) (length (c :: rest))) as [Hl|Hl].
    + destruct (prefix_of_app_long _ _ _ _ H Hl) as [p' Hp]. now apply Hthese in Hp.
    + apply prefix_of_app_short in H; [|exact Hl].
      apply (no_keyword_in_short_prefix (length (c :: rest)) (c :: rest)).
      * exact Hl.
      * exact H.
      * exists kw. split; [exact Hin|]. now exists pre, post.
Qed.

Lemma flush_ok (entries : list raw_entry) (current : option str) :
  accumulator_ok (entries, current) ->
  forall e, In (tag_list, e) (flush entries current) -> list_entry_ok e.
Proof.
  intros [He Hc] e. unfold flush. destruct current as [s|]; [|apply He].
  destruct (nonempty s); [|apply He].
  rewrite in_app_iff. intros [H|[H|[]]]; [now apply He|].
  injection H as <-. now apply Hc.
Qed.

Lemma accumulate_line_ok (st : list raw_entry * option str) (line : str) :
  line <> [] -> accumulator_ok st ->
  exists st', accumulate_line st line = Ret st' /\ accumulator_ok st'.
Proof.
  intros Hne Hok. destruct st as [entries current]. unfold accumulate_line.
  pose proof (flush_ok entries current Hok) as Hflush.
  destruct Hok as [He Hc]. cbn [fst snd] in He, Hc.
  destruct (is_match (re_match true SKIP_LINE line)).
  { destruct (truthy current); eexists; (split; [reflexivity|]).
    - split; [exact Hflush | discriminate].
    - now split. }
  destruct line as [|c0 rest]; [congruence|]. cbn [first_char bind].
  destruct (starts_entry c0 (c0 :: rest)) eqn:Es.
  { eexists. split; [reflexivity|]. split; [exact Hflush|].
    cbn [snd]. intros s [= <-]. now apply starts_entry_ok. }
  destruct (truthy current) eqn:Et.
  - destruct (continues_entry c0 (c0 :: rest)); eexists; (split; [reflexivity|]).
    + split; [exact He|]. cbn [snd]. intros s [= <-].
      destruct current as [cur|]; [|discriminate]. cbn [default].
      apply list_entry_ok_app. now apply Hc.
    + split; [exact Hflush | discriminate].
  - eexists. split; [reflexivity|]. now split.
Qed.

Lemma for_each_accumulate_ok (lines : list str) :
  forall st,
    Forall (fun l => l <> []) lines -> accumulator_ok st ->
    exists st', for_each accumulate_line st lines = Ret st' /\ accumulator_ok st'.
Proof.
  induction lines as [|line lines IH]; intros st Hl Hok.
  - exists st. now split.
  - apply Forall_cons in Hl as [Hne Hl]. cbn [for_each].
    destruct (accumulate_line_ok st line Hne Hok) as (st1 & -> & Hok1).
    cbn [bind]. now apply IH.
Qed.

Lemma accumulate_ok (entries : list raw_entry) (lines : list str) :
  Forall (fun l => l <> []) lines ->
  (forall e, In (tag_list, e) entries -> list_entry_ok e) ->
  exists out, accumulate entries lines = Ret out
              /\ forall e, In (tag_list, e) out -> list_entry_ok e.
Proof.
  intros Hl He. unfold accumulate.
  destruct (for_each_accumulate_ok lines (entries, None) Hl) as ([out cur] & -> & Hok).
  { split; [exact He | discriminate]. }
  cbn [bind]. eexists. split; [reflexivity|]. now apply flush_ok.
Qed.

Lemma bullet_entries_tag (parts : list str) (e : str) :
  ~ In (tag_list, e) (flat_map bullet_entry parts).
Proof.
  rewrite in_flat_map. intros (part & _ & H). unfold bullet_entry in H.
  destruct (nonempty _); [|exact H]. destruct H as [H|[]]. discriminate.
Qed.

Lemma stripped_lines_nonempty (ls : list str) :
  Forall (fun l => l <> [])
         (map strip (List.filter (fun l => nonempty (strip l)) ls)).
Proof.
  rewrite Forall_map, Forall_forall. intros l Hl.
  rewrite list_elem_of_In in Hl. apply List.filter_In in Hl as [_ Hl].
  cbn. now destruct (strip l).
Qed.

(** C9. The segmenter never raises, and every list-tagged raw entry it
    emits begins with an upper-case character, contains one of the
    keywords of the segmentation set in its own case, and begins with
    neither ["The "] nor ["These "]. *)
Theorem split_into_raw_entries_list_entries (text : str) :
  exists entries,
    split_into_raw_entries text = Ret entries
    /\ forall e,
         In (tag_list, e) entries ->
         (exists c rest, e = c :: rest /\ isupper c = true)
         /\ (exists kw, In kw KEYWORDS /\ contains kw e)
         /\ (forall post, e <> txt "The " ++ post)
         /\ (forall post, e <> txt "These " ++ post).
Proof.
  unfold split_into_raw_entries.
  destruct (re_search false LIST_HEADER text) as [m|].
  - apply accumulate_ok.
    + apply stripped_lines_nonempty.
    + intros e He. now apply bullet_entries_tag in He.
  - eexists. split; [reflexivity|].
    intros e He. now apply bullet_entries_tag in He.
Qed.

Lemma split_into_raw_entries_list_entries_witness :
  (exists c rest,
      txt "Beta Holdings Group (a subsidiary of Gamma)" = c :: rest /\ isupper c = true)
  /\ (exists kw, In kw KEYWORDS
                 /\ contains kw (txt "Beta Holdings Group (a subsidiary of Gamma)"))
  /\ (forall post, txt "Beta Holdings Group (a subsidiary of Gamma)" <> txt "The " ++ post)
  /\ (forall post, txt "Beta Holdings Group (a subsidiary of Gamma)" <> txt "These " ++ post).
Proof.
  destruct (split_into_raw_entries_list_entries
              (txt "UFLPA Section 2(d)(2)(B)(i) A List of Entities" ++ [NL]
               ++ txt "Beta Holdings Group" ++ [NL] ++ txt "(a subsidiary of Gamma)"))
    as (entries & Heq & Hall).
  apply Hall. vm_compute in Heq. injection Heq as <-. left. reflexivity.
Defined.

(** ** Stripping *)

Section Strip.
Variable p : char -> bool.

Lemma lstrip_by_split (s : str) :
  exists lead, s = lead ++ lstrip_by p s /\ Forall (fun c => p c = true) lead.
Proof.
  induction s as [|c s (lead & IH & Hl)].
  - exists []. split; [reflexivity | constructor].
  - simpl. destruct (p c) eqn:E.
    + exists (c :: lead). split; [simpl; now f_equal | now constructor].
    + exists []. split; [reflexivity | constructor].
Qed.

Lemma lstrip_by_head (s : str) (c : char) :
  head (lstrip_by p s) = Some c -> p c = false.
Proof.
  induction s as [|d s IH]; simpl; [discriminate|].
  destruct (p d) eqn:E; [exact IH|]. simpl. now intros [= <-].
Qed.

Lemma lstrip_by_id (s : str) :
  (forall c, head s = Some c -> p c = false) -> lstrip_by p s = s.
Proof.
  destruct s as [|c s]; [reflexivity|]. intros H. simpl.
  now rewrite (H c eq_refl).
Qed.

Lemma rstrip_by_split (s : str) :
  exists trail, s = rstrip_by p s ++ trail /\ Forall (fun c => p c = true) trail.
Proof.
  unfold rstrip_by. destruct (lstrip_by_split (reverse s)) as (lead & H & Hl).
  exists (reverse lead). split; [|now apply Forall_reverse].
  rewrite <- reverse_app, <- H. now rewrite reverse_involutive.
Qed.

Lemma rstrip_by_last (s : str) (c : char) :
  last (rstrip_by p s) = Some c -> p c = false.
Proof. unfold rstrip_by. rewrite last_reverse. apply lstrip_by_head. Qed.

Lemma rstrip_by_id (s : str) :
  (forall c, last s = Some c -> p c = false) -> rstrip_by p s = s.
Proof.
  intros H. unfold rstrip_by. rewrite lstrip_by_id.
  - apply reverse_involutive.
  - intros c. rewrite head_reverse. apply H.
Qed.

End Strip.

Lemma strip_trimmed (s : str) : trimmed (strip s).
Proof.
  unfold strip, strip_by. intros c [H|H].
  - destruct (rstrip_by_split isspace (lstrip_by isspace s)) as (trail & Hs & _).
    apply (lstrip_by_head isspace s). rewrite Hs.
    destruct (rstrip_by isspace (lstrip_by isspace s)); [discriminate | exact H].
  - now apply rstrip_by_last in H.
Qed.

Lemma strip_id (s : str) : trimmed s -> strip s = s.
Proof.
  intros H. unfold strip, strip_by.
  rewrite (lstrip_by_id isspace s) by (intros c Hc; apply H; now left).
  apply rstrip_by_id. intros c Hc. apply H. now right.
Qed.

(** ** Collapsing white space *)

Lemma exec_many_ws (p0 : nat) (s : str) :
  forall pos,
    exec false (Many isspace) pos s None (fun e _ g => Some (mk_rmatch p0 e g))
    = Some (mk_rmatch p0 (pos + ws_run s) None).
Proof.
  induction s as [|c s IH]; intros pos.
  - simpl. now rewrite Nat.add_0_r.
  - cbn [exec] in *. cbn [ws_run]. destruct (isspace c).
    + rewrite IH. now rewrite Nat.add_succ_r.
    + now rewrite Nat.add_0_r.
Qed.

Lemma match_at_ws_run (pos : nat) (c : char) (s : str) :
  match_at false WS_RUN pos (c :: s)
  = if isspace c then Some (mk_rmatch pos (S pos + ws_run s) None) else None.
Proof.
  unfold match_at, WS_RUN, plus. cbn [exec]. destruct (isspace c); [|reflexivity].
  apply (exec_many_ws pos s (S pos)).
Qed.

(** [re.sub] with [\s+] and one space squeezes the white-space runs. *)
Lemma sub_from_squeeze (s : str) :
  forall pos,
    sub_from false WS_RUN (txt " ") pos 0 s = squeeze false s
    /\ sub_from false WS_RUN (txt " ") pos (ws_run s) s = squeeze true s.
Proof.
  induction s as [|c s IH]; intros pos; [split; reflexivity|].
  assert (H0 : sub_from false WS_RUN (txt " ") pos 0 (c :: s) = squeeze false (c :: s)).
  { cbn [sub_from squeeze]. rewrite match_at_ws_run. destruct (isspace c).
    - cbn [m_end]. replace (Nat.ltb pos (S pos + ws_run s)) with true
        by (symmetry; apply Nat.ltb_lt; lia).
      replace (S pos + ws_run s - pos - 1) with (ws_run s) by lia.
      rewrite (proj2 (IH (S pos))). reflexivity.
    - now rewrite (proj1 (IH (S pos))). }
  split; [exact H0|].
  cbn [ws_run]. destruct (isspace c) eqn:E.
  - cbn [sub_from squeeze]. rewrite E. apply (proj2 (IH (S pos))).
  - rewrite H0. cbn [squeeze]. now rewrite E.
Qed.

Lemma re_sub_squeeze (s : str) :
  re_sub false WS_RUN (txt " ") s = squeeze false s.
Proof. apply (proj1 (sub_from_squeeze s 0)). Qed.

Lemma squeeze_tidy (s : str) : forall b, tidy_from b (squeeze b s).
Proof.
  induction s as [|c s IH]; intros b; [exact I|].
  cbn [squeeze]. destruct (isspace c) eqn:E.
  - destruct b; [apply IH|]. cbn [tidy_from].
    change (isspace SP) with true. cbv iota. auto.
  - cbn [tidy_from]. rewrite E. apply IH.
Qed.

Lemma tidy_from_weaken (b : bool) (s : str) : tidy_from b s -> tidy_from false s.
Proof.
  destruct s as [|c s]; [auto|]. cbn [tidy_from].
  destruct (isspace c); [|auto]. tauto.
Qed.

Lemma squeeze_id (s : str) : forall b, tidy_from b s -> squeeze b s = s.
Proof.
  induction s as [|c s IH]; intros b; [reflexivity|].
  cbn [tidy_from squeeze]. destruct (isspace c).
  - intros (-> & -> & H). f_equal. now apply IH.
  - intros H. f_equal. now apply IH.
Qed.

Lemma tidy_from_app_l (s post : str) :
  forall b, tidy_from b (s ++ post) -> tidy_from b s.
Proof.
  induction s as [|c s IH]; intros b; [intros _; exact I|].
  cbn [app tidy_from]. destruct (isspace c).
  - intros (? & ? & H). repeat split; auto.
  - apply IH.
Qed.

Lemma tidy_from_app_r (pre s : str) :
  forall b, tidy_from b (pre ++ s) -> tidy_from false s.
Proof.
  induction pre as [|c pre IH]; intros b; [apply tidy_from_weaken|].
  cbn [app tidy_from]. destruct (isspace c).
  - intros (_ & _ & H). now apply IH in H.
  - apply IH.
Qed.

Lemma tidy_no_ws_run (s : str) : forall b, tidy_from b s -> no_ws_run s.
Proof.
  intros b H pre c d post -> Hc Hd.
  apply tidy_from_app_r in H. cbn [tidy_from] in H.
  rewrite Hc, Hd in H. destruct H as (_ & _ & _ & [=] & _).
Qed.

Lemma tidy_space (pre : str) (c : char) (post : str) :
  forall b, tidy_from b (pre ++ c :: post) -> isspace c = true -> c = SP.
Proof.
  intros b H Hc. apply tidy_from_app_r in H. cbn [tidy_from] in H.
  rewrite Hc in H. tauto.
Qed.

Lemma strip_split (s : str) :
  exists lead trail, s = lead ++ strip s ++ trail.
Proof.
  unfold strip, strip_by.
  destruct (lstrip_by_split isspace s) as (lead & Hl & _).
  destruct (rstrip_by_split isspace (lstrip_by isspace s)) as (trail & Ht & _).
  exists lead, trail. now rewrite <- Ht.
Qed.

Lemma strip_tidy (s : str) (b : bool) : tidy_from b s -> tidy_from false (strip s).
Proof.
  destruct (strip_split s) as (lead & trail & H). rewrite H at 1.
  intros Ht. apply tidy_from_app_r in Ht. now apply tidy_from_app_l in Ht.
Qed.

Lemma collapse_squeeze (s : str) : collapse s = strip (squeeze false s).
Proof. unfold collapse. now rewrite re_sub_squeeze. Qed.

Lemma collapse_tidy (s : str) : tidy_from false (collapse s).
Proof. rewrite collapse_squeeze. apply (strip_tidy _ false), squeeze_tidy. Qed.

Lemma collapse_trimmed (s : str) : trimmed (collapse s).
Proof. rewrite collapse_squeeze. apply strip_trimmed. Qed.

Lemma collapse_id (s : str) : tidy_from false s -> trimmed s -> collapse s = s.
Proof.
  intros Ht Hs. rewrite collapse_squeeze, squeeze_id by exact Ht.
  now apply strip_id.
Qed.

(** A prefix of a trimmed string is stripped on the right only. *)
Lemma strip_prefix_of_trimmed (s rest : str) :
  trimmed (s ++ rest) -> strip s = rstrip_by isspace s.
Proof.
  intros H. unfold strip, strip_by. rewrite lstrip_by_id; [reflexivity|].
  intros c Hc. apply H. left. destruct s; [discriminate | exact Hc].
Qed.

(** The shape of the brand: what [strip], [rstrip(chars)] and [strip]
    leave of a prefix [s0] of a collapsed input [R]. *)
Lemma stripped_prefix_shape (pset : char -> bool) (R s0 rest : str) :
  tidy_from false R -> trimmed R -> R = s0 ++ rest ->
  let b := strip (rstrip_by pset (strip s0)) in
  tidy_from false b /\ trimmed b
  /\ forall c, last b = Some c -> pset c = true ->
               exists x rest', pset x = true /\ R = b ++ SP :: x :: rest'.
Proof.
  intros Htidy Htrim HR b.
  assert (Hb0 : strip s0 = rstrip_by isspace s0)
    by (apply (strip_prefix_of_trimmed s0 rest); now rewrite <- HR).
  destruct (rstrip_by_split isspace s0) as (trail0 & Hs0 & _).
  rewrite <- Hb0 in Hs0.
  destruct (rstrip_by_split pset (strip s0)) as (punct & Hp & Hpunct).
  set (b1 := rstrip_by pset (strip s0)) in *.
  assert (HR1 : R = b1 ++ punct ++ trail0 ++ rest).
  { rewrite HR, Hs0, Hp at 1. now rewrite <- !app_assoc. }
  assert (Hb : b = rstrip_by isspace b1).
  { apply (strip_prefix_of_trimmed b1 (punct ++ trail0 ++ rest)). now rewrite <- HR1. }
  destruct (rstrip_by_split isspace b1) as (trail1 & Hb1 & Htrail1).
  rewrite <- Hb in Hb1.
  assert (HR2 : R = b ++ trail1 ++ punct ++ trail0 ++ rest).
  { rewrite HR1, Hb1 at 1. now rewrite <- !app_assoc. }
  split; [|split].
  - rewrite HR2 in Htidy. now apply tidy_from_app_l in Htidy.
  - apply strip_trimmed.
  - intros c Hc Hpc. destruct trail1 as [|w t1].
    + rewrite app_nil_r in Hb1. rewrite <- Hb1 in Hc.
      apply rstrip_by_last in Hc. congruence.
    + apply Forall_cons in Htrail1 as [Hw Ht1].
      assert (w = SP) as ->.
      { rewrite HR2 in Htidy. now apply (tidy_space b w _ false) in Htidy. }
      destruct t1 as [|d t1].
      * destruct punct as [|x punct].
        -- exfalso. rewrite app_nil_r in Hp.
           assert (Hl : last (strip s0) = Some SP)
             by (rewrite Hp, Hb1; apply last_snoc).
           pose proof (strip_trimmed s0 SP (or_intror Hl)) as Hsp.
           discriminate Hsp.
        -- apply Forall_cons in Hpunct as [Hx _].
           exists x, (punct ++ trail0 ++ rest). split; [exact Hx|].
           rewrite HR2 at 1. reflexivity.
      * exfalso. apply Forall_cons in Ht1 as [Hd _].
        apply (tidy_no_ws_run R false Htidy b SP d (t1 ++ punct ++ trail0 ++ rest));
          [|reflexivity | exact Hd].
        rewrite HR2 at 1. reflexivity.
Qed.

(** ** The shape of the brand *)

Lemma char_in_punct_paren (c : char) :
  char_in (txt ".,;") c = true -> char_in (txt ".,;(") c = true.
Proof.
  unfold char_in. cbn [txt list_ascii_of_string map existsb].
  rewrite !orb_true_iff. tauto.
Qed.

Lemma derived_brand_tidy (R : str) :
  tidy_from false R -> trimmed R ->
  tidy_from false (derived_brand R) /\ trimmed (derived_brand R)
  /\ forall c, last (derived_brand R) = Some c -> char_in (txt ".,;") c = true ->
               exists x rest,
                 char_in (txt ".,;(") x = true /\ R = derived_brand R ++ SP :: x :: rest.
Proof.
  intros Htidy Htrim. unfold derived_brand.
  destruct (re_search true ALIAS_PATTERN R) as [m|].
  - destruct (stripped_prefix_shape (char_in (txt ".,;(")) R (take (m_start m) R)
                          (drop (m_start m) R) Htidy Htrim)
      as (Ht & Hs & Hlast); [now rewrite take_drop|].
    unfold rstrip. rewrite (collapse_id _ Ht Hs).
    split; [exact Ht|]. split; [exact Hs|].
    intros c Hc Hp. apply (Hlast c Hc). now apply char_in_punct_paren.
  - destruct (stripped_prefix_shape (char_in (txt ".,;")) R R [] Htidy Htrim)
      as (Ht & Hs & Hlast); [now rewrite app_nil_r|].
    unfold rstrip. rewrite (collapse_id _ Ht Hs).
    split; [exact Ht|]. split; [exact Hs|].
    intros c Hc Hp. destruct (Hlast c Hc Hp) as (x & rest & Hx & HR).
    exists x, rest. split; [now apply char_in_punct_paren | exact HR].
Qed.

(** C8, as the code has it: the brand of a returned record is trimmed
    and has no two white-space characters in a row; it ends with one of
    ['.'], [','] and [';'] only when, in the collapsed input, the brand is
    followed by a space and then one of ['.'], [','], [';'] and ['(']. *)
Theorem parse_entry_brand_form (raw : str) (e : entity) :
  parse_entry raw = Ret (Some e) ->
  trimmed (brand e) /\ no_ws_run (brand e)
  /\ forall c, last (brand e) = Some c -> char_in (txt ".,;") c = true ->
               exists x rest,
                 char_in (txt ".,;(") x = true
                 /\ collapse raw = brand e ++ SP :: x :: rest.
Proof.
  rewrite parse_entry_unfold. intros H.
  destruct (Nat.ltb (length (collapse raw)) 5); [discriminate|].
  destruct (Nat.ltb (length (derived_brand (collapse raw))) 5); [discriminate|].
  destruct (negb _); [discriminate|]. injection H as <-. cbn [brand].
  destruct (derived_brand_tidy (collapse raw) (collapse_tidy raw) (collapse_trimmed raw))
    as (Ht & Hs & Hlast).
  split; [exact Hs|]. split; [|exact Hlast].
  now apply (tidy_no_ws_run _ false).
Qed.

Lemma parse_entry_brand_form_witness :
  trimmed (txt "Acme Co.") /\ no_ws_run (txt "Acme Co.")
  /\ forall c, last (txt "Acme Co.") = Some c -> char_in (txt ".,;") c = true ->
               exists x rest,
                 char_in (txt ".,;(") x = true
                 /\ collapse (txt "Acme Co. .") = txt "Acme Co." ++ SP :: x :: rest.
Proof.
  apply (parse_entry_brand_form (txt "Acme Co. .") (mk_entity (txt "Acme Co.") [])).
  vm_compute. reflexivity.
Defined.

(** The brand of a returned record can end with a period. *)
Lemma parse_entry_brand_ends_with_period :
  ~ (forall raw e,
        parse_entry raw = Ret (Some e) ->
        trimmed (brand e) /\ no_ws_run (brand e)
        /\ forall c, last (brand e) = Some c -> char_in (txt ".,;") c = false).
Proof.
  intros H.
  destruct (H (txt "Acme Co. .") (mk_entity (txt "Acme Co.") [])) as (_ & _ & Hlast).
  - vm_compute. reflexivity.
  - specialize (Hlast (L1 ".") eq_refl). vm_compute in Hlast. discriminate Hlast.
Qed.

(* ===================================================================== *)
(** * Further properties *)
(* ===================================================================== *)

(** ** The section locator, continued *)

(** What [get_entity_list_text] returns: the text itself when the marker
    does not occur, the text from the last occurrence of it otherwise. *)
Lemma get_entity_list_text_cases (full_text : str) :
  (get_entity_list_text full_text = full_text
   /\ forall i, ~ occurs_at marker full_text i)
  \/ (exists i, get_entity_list_text full_text = drop i full_text
                /\ occurs_at marker full_text i
                /\ forall j, occurs_at marker full_text j -> j <= i).
Proof.
  unfold get_entity_list_text.
  destruct (rfind_spec marker full_text) as [[Hr Hno] | (i & Hr & Hocc & Hmax)];
    [discriminate | |]; rewrite Hr.
  - left. now split.
  - right. exists i. split; [|now split].
    destruct (Z.of_nat i =? -1)%Z eqn:E; [lia|].
    unfold slice_from. destruct (Z.of_nat i <? 0)%Z eqn:E'; [lia|].
    now rewrite Nat2Z.id.
Qed.

Lemma occurs_at_in_drop (sub s : str) (i j : nat) :
  i <= length s -> occurs_at sub (drop i s) j -> occurs_at sub s (i + j).
Proof.
  intros Hi H. apply occurs_at_drop in H as [Hj H].
  rewrite length_drop in Hj. rewrite drop_drop in H.
  apply occurs_at_drop. split; [lia | exact H].
Qed.

(** X1. The located section is a suffix of the text: nothing is added and
    nothing inside it is removed. *)
Theorem get_entity_list_text_suffix (full_text : str) :
  exists pre, full_text = pre ++ get_entity_list_text full_text.
Proof.
  destruct (get_entity_list_text_cases full_text) as [[-> _] | (i & -> & _)].
  - now exists [].
  - exists (take i full_text). now rewrite take_drop.
Qed.

(** X2. Locating the section twice is locating it once. *)
Theorem get_entity_list_text_idempotent (full_text : str) :
  get_entity_list_text (get_entity_list_text full_text)
  = get_entity_list_text full_text.
Proof.
  destruct (get_entity_list_text_cases full_text) as [[H _] | (i & H & Hocc & Hmax)];
    rewrite H; [exact H|].
  destruct (get_entity_list_text_cases (drop i full_text))
    as [[H' _] | (j & H' & Hocc' & _)]; [exact H'|].
  rewrite H'. apply occurs_at_in_drop in Hocc'.
  - apply Hmax in Hocc'. now replace j with 0 by lia.
  - apply occurs_at_drop in Hocc. tauto.
Qed.

(** X3. When the marker occurs in the text, the located section begins with
    the marker and holds no other occurrence of it. *)
Theorem get_entity_list_text_single_marker (full_text : str) (i : nat) :
  occurs_at marker full_text i ->
  (exists post, get_entity_list_text full_text = marker ++ post)
  /\ forall j, occurs_at marker (get_entity_list_text full_text) j -> j = 0.
Proof.
  intros Hi.
  destruct (get_entity_list_text_cases full_text) as [[_ Hno] | (m & H & Hocc & Hmax)];
    [now apply Hno in Hi|].
  rewrite H. pose proof Hocc as Hocc0. apply occurs_at_drop in Hocc0 as [Hm Hsw].
  split.
  - now apply startswith_prefix.
  - intros j Hj. apply occurs_at_in_drop in Hj; [|exact Hm].
    apply Hmax in Hj. lia.
Qed.

Lemma get_entity_list_text_single_marker_witness :
  (exists post,
      get_entity_list_text (txt "See Appendix 1 below. Appendix 1 Entities")
      = marker ++ post)
  /\ forall j,
       occurs_at marker
                 (get_entity_list_text (txt "See Appendix 1 below. Appendix 1 Entities")) j ->
       j = 0.
Proof.
  apply (get_entity_list_text_single_marker
           (txt "See Appendix 1 below. Appendix 1 Entities") 4).
  exists (txt "See "), (txt " below. Appendix 1 Entities"). split; reflexivity.
Defined.

(** ** The entry parser, continued *)

Lemma collapse_idempotent (s : str) : collapse (collapse s) = collapse s.
Proof. apply collapse_id; [apply collapse_tidy | apply collapse_trimmed]. Qed.

(** X4. The parser sees its input only through the collapsed form: parsing
    an input and parsing its collapsed form give the same result. *)
Theorem parse_entry_of_collapsed (raw : str) :
  parse_entry (collapse raw) = parse_entry raw.
Proof. rewrite !parse_entry_unfold. now rewrite collapse_idempotent. Qed.

Lemma squeeze_length (s : str) : forall b, length (squeeze b s) <= length s.
Proof.
  induction s as [|c s IH]; intros b; [reflexivity|].
  cbn [squeeze]. destruct (isspace c); [destruct b|]; cbn [length].
  - specialize (IH true). lia.
  - specialize (IH true). lia.
  - specialize (IH false). lia.
Qed.

Lemma strip_length (s : str) : length (strip s) <= length s.
Proof.
  destruct (strip_split s) as (lead & trail & H).
  rewrite H at 2. rewrite !length_app. lia.
Qed.

Lemma collapse_length (s : str) : length (collapse s) <= length s.
Proof.
  rewrite collapse_squeeze.
  pose proof (strip_length (squeeze false s)). pose proof (squeeze_length s false). lia.
Qed.

(** X5. An input of fewer than 5 characters, the empty one included, is
    rejected. *)
Theorem parse_entry_short_input (raw : str) :
  length raw < 5 -> parse_entry raw = Ret None.
Proof.
  intros H. rewrite parse_entry_unfold.
  pose proof (collapse_length raw) as Hc.
  destruct (Nat.ltb_spec (length (collapse raw)) 5); [reflexivity | lia].
Qed.

Lemma parse_entry_short_input_witness : parse_entry (txt "Co.") = Ret None.
Proof. apply parse_entry_short_input. vm_compute. lia. Defined.

(** What [strip], [rstrip(chars)] and [strip] leave of a prefix of a
    trimmed string is a prefix of it. *)
Lemma stripped_prefix_is_prefix (pset : char -> bool) (R s0 rest : str) :
  trimmed R -> R = s0 ++ rest ->
  exists rest', s0 = strip (rstrip_by pset (strip s0)) ++ rest'.
Proof.
  intros Htrim HR.
  assert (Hb0 : strip s0 = rstrip_by isspace s0)
    by (apply (strip_prefix_of_trimmed s0 rest); now rewrite <- HR).
  destruct (rstrip_by_split isspace s0) as (trail0 & Hs0 & _).
  rewrite <- Hb0 in Hs0.
  destruct (rstrip_by_split pset (strip s0)) as (punct & Hp & _).
  set (b1 := rstrip_by pset (strip s0)) in *.
  assert (Hb : strip b1 = rstrip_by isspace b1).
  { apply (strip_prefix_of_trimmed b1 (punct ++ trail0 ++ rest)).
    rewrite HR, Hs0, Hp in Htrim. now rewrite <- !app_assoc in Htrim. }
  destruct (rstrip_by_split isspace b1) as (trail1 & Hb1 & _).
  rewrite <- Hb in Hb1.
  exists (trail1 ++ punct ++ trail0).
  rewrite Hs0 at 1. rewrite Hp at 1. rewrite Hb1 at 1. now rewrite <- !app_assoc.
Qed.

Lemma derived_brand_prefix (R : str) :
  tidy_from false R -> trimmed R ->
  (exists rest, R = derived_brand R ++ rest)
  /\ forall m, re_search true ALIAS_PATTERN R = Some m ->
               length (derived_brand R) <= m_start m.
Proof.
  intros Htidy Htrim. unfold derived_brand.
  destruct (re_search true ALIAS_PATTERN R) as [m|].
  - destruct (stripped_prefix_shape (char_in (txt ".,;(")) R (take (m_start m) R)
                (drop (m_start m) R) Htidy Htrim) as (Ht & Hs & _);
      [now rewrite take_drop|].
    destruct (stripped_prefix_is_prefix (char_in (txt ".,;(")) R (take (m_start m) R)
                (drop (m_start m) R) Htrim) as (rest' & Hpre);
      [now rewrite take_drop|].
    unfold rstrip. rewrite (collapse_id _ Ht Hs). split.
    + exists (rest' ++ drop (m_start m) R).
      rewrite app_assoc, <- Hpre. now rewrite take_drop.
    + intros m' [= <-]. apply (f_equal length) in Hpre.
      rewrite length_app, length_take in Hpre. lia.
  - destruct (stripped_prefix_shape (char_in (txt ".,;")) R R [] Htidy Htrim)
      as (Ht & Hs & _); [now rewrite app_nil_r|].
    destruct (stripped_prefix_is_prefix (char_in (txt ".,;")) R R [] Htrim)
      as (rest' & Hpre); [now rewrite app_nil_r|].
    unfold rstrip. rewrite (collapse_id _ Ht Hs). split; [eauto | discriminate].
Qed.

(** X7. The brand of a returned record has at least 5 characters, is a prefix
    of the collapsed input, and ends before the alias clause when there
    is one. *)
Theorem parse_entry_brand_prefix (raw : str) (e : entity) :
  parse_entry raw = Ret (Some e) ->
  5 <= length (brand e)
  /\ (exists rest, collapse raw = brand e ++ rest)
  /\ forall m, re_search true ALIAS_PATTERN (collapse raw) = Some m ->
               length (brand e) <= m_start m.
Proof.
  rewrite parse_entry_unfold. intros H.
  destruct (Nat.ltb (length (collapse raw)) 5); [discriminate|].
  destruct (Nat.ltb_spec (length (derived_brand (collapse raw))) 5); [discriminate|].
  destruct (negb _); [discriminate|]. injection H as <-. cbn [brand].
  split; [assumption|].
  apply derived_brand_prefix; [apply collapse_tidy | apply collapse_trimmed].
Qed.

Lemma parse_entry_brand_prefix_witness :
  5 <= length (txt "Acme Textile Co")
  /\ (exists rest,
         collapse (txt "Acme  Textile Co. (formerly known as Acme Tex)")
         = txt "Acme Textile Co" ++ rest)
  /\ forall m,
       re_search true ALIAS_PATTERN
                 (collapse (txt "Acme  Textile Co. (formerly known as Acme Tex)")) = Some m ->
       length (txt "Acme Textile Co") <= m_start m.
Proof.
  apply (parse_entry_brand_prefix
           (txt "Acme  Textile Co. (formerly known as Acme Tex)")
           (mk_entity (txt "Acme Textile Co") [txt "Acme Tex"])).
  vm_compute. reflexivity.
Defined.

(** *** Inputs without a parenthesis *)

Lemma lit_match_lparen (d : char) :
  lit_match true (L1 "(") d = true -> d = L1 "(".
Proof.
  destruct d as [a| | | | | |]; [destruct a as [[] [] [] [] [] [] [] []]| | | | | |];
    intros H; vm_compute in H; first [discriminate H | reflexivity].
Qed.

Lemma alias_match_lparen (pos : nat) (s : str) (m : rmatch) :
  match_at true ALIAS_PATTERN pos s = Some m -> exists s', s = L1 "(" :: s'.
Proof.
  unfold match_at, ALIAS_PATTERN. cbn [cat]. cbn [exec].
  destruct s as [|d s]; [discriminate|].
  destruct (lit_match true (L1 "(") d) eqn:E; [|discriminate].
  apply lit_match_lparen in E as ->. eauto.
Qed.

Lemma In_squeeze (c : char) (s : str) :
  isspace c = false -> forall b, In c (squeeze b s) -> In c s.
Proof.
  intros Hc. induction s as [|d s IH]; intros b; [easy|].
  cbn [squeeze]. destruct (isspace d) eqn:E.
  - destruct b.
    + intros H. right. now apply IH in H.
    + intros [<-|H]; [discriminate Hc|]. right. now apply IH in H.
  - intros [<-|H]; [now left|]. right. now apply IH in H.
Qed.

Lemma In_strip (c : char) (s : str) : In c (strip s) -> In c s.
Proof.
  destruct (strip_split s) as (lead & trail & H). rewrite H at 2.
  rewrite !in_app_iff. tauto.
Qed.

Lemma In_collapse (c : char) (s : str) :
  isspace c = false -> In c (collapse s) -> In c s.
Proof.
  intros Hc H. rewrite collapse_squeeze in H.
  apply In_strip in H. now apply In_squeeze in H.
Qed.

Lemma In_drop (c : char) (s : str) (i : nat) : In c (drop i s) -> In c s.
Proof.
  intros H. rewrite <- (take_drop i s). apply in_app_iff. now right.
Qed.

Lemma alias_search_lparen (R : str) (m : rmatch) :
  re_search true ALIAS_PATTERN R = Some m -> In (L1 "(") R.
Proof.
  intros H. apply search_from_match_at in H as (i & _ & H).
  apply alias_match_lparen in H as [s' H].
  apply (In_drop _ _ i). rewrite H. now left.
Qed.

(** X8. An input without an opening parenthesis gives a record without
    aliases, whose brand is the collapsed input less its trailing
    punctuation. *)
Theorem parse_entry_without_parenthesis (raw : str) (e : entity) :
  parse_entry raw = Ret (Some e) ->
  ~ In (L1 "(") raw ->
  aliases e = []
  /\ brand e = strip (rstrip (txt ".,;") (collapse raw)).
Proof.
  rewrite parse_entry_unfold. intros H Hno.
  destruct (Nat.ltb (length (collapse raw)) 5); [discriminate|].
  destruct (Nat.ltb (length (derived_brand (collapse raw))) 5); [discriminate|].
  destruct (negb _); [discriminate|]. injection H as <-. cbn [brand aliases].
  unfold derived_aliases, derived_brand.
  destruct (re_search true ALIAS_PATTERN (collapse raw)) as [m|] eqn:Es.
  { exfalso. apply Hno. apply alias_search_lparen in Es.
    now apply In_collapse in Es. }
  split; [reflexivity|].
  destruct (stripped_prefix_shape (char_in (txt ".,;")) (collapse raw) (collapse raw) []
              (collapse_tidy raw) (collapse_trimmed raw)) as (Ht & Hs & _);
    [now rewrite app_nil_r|].
  unfold rstrip in *. rewrite (collapse_id _ Ht Hs).
  now rewrite (strip_id _ (collapse_trimmed raw)).
Qed.

Lemma parse_entry_without_parenthesis_witness :
  aliases (mk_entity (txt "Hoshine Silicon Industry Co., Ltd") []) = []
  /\ brand (mk_entity (txt "Hoshine Silicon Industry Co., Ltd") [])
     = strip (rstrip (txt ".,;") (collapse (txt " Hoshine Silicon  Industry Co., Ltd.;"))).
Proof.
  apply (parse_entry_without_parenthesis (txt " Hoshine Silicon  Industry Co., Ltd.;")).
  - vm_compute. reflexivity.
  - vm_compute. intuition discriminate.
Defined.

(** *** The aliases *)

Section ExecMore.
Context {R : Type} (ic : bool).
Implicit Types (k : nat -> str -> option (nat * nat) -> option R).

(** A pattern that cannot fail reaches a continuation that cannot. *)
Lemma exec_infallible (r : regex) :
  infallible r = true ->
  forall pos s g k,
    (forall pos' s' g', is_Some (k pos' s' g')) ->
    is_Some (exec ic r pos s g k).
Proof.
  induction r as [ | c | p | | r1 IH1 r2 IH2 | r1 IH1 r2 IH2 | r1 IH1 | p | p | r1 IH1 ];
    cbn [infallible]; intros Hi pos s g k Hk; try discriminate; cbn [exec].
  - apply Hk.
  - apply andb_true_iff in Hi as [H1 H2]. apply IH1; [exact H1|].
    intros pos' s' g'. now apply IH2.
  - destruct (exec ic r1 pos s g k) eqn:E; [eauto|].
    apply orb_true_iff in Hi as [H1|H2].
    + destruct (IH1 H1 pos s g k Hk) as [x Hx]. congruence.
    + now apply IH2.
  - destruct (exec ic r1 pos s g k); [eauto | apply Hk].
  - revert pos. induction s as [|d s' IHs]; intros pos; [apply Hk|].
    destruct (p d); [|apply Hk].
    match goal with |- is_Some (match ?e with _ => _ end) => destruct e end;
      [eauto | apply Hk].
  - destruct s as [|d s']; destruct (Hk pos [] g) as [x Hx];
      destruct (Hk pos (d :: s') g) as [y Hy] || idtac.
    + rewrite Hx. eauto.
    + rewrite Hy. eauto.
  - apply IH1; [exact Hi|]. intros pos' s' g'. apply Hk.
Qed.

(** A greedy run over a class consumes characters of the class and
    leaves the group as it was. *)
Lemma exec_many_class (p : char -> bool) (s : str) :
  forall pos g k x,
    exec ic (Many p) pos s g k = Some x ->
    exists n, n <= length s /\ Forall (fun c => p c = true) (take n s)
              /\ k (pos + n) (drop n s) g = Some x.
Proof.
  induction s as [|d s' IHs]; intros pos g k x H; cbn [exec] in H.
  - exists 0. rewrite Nat.add_0_r. now repeat split.
  - destruct (p d) eqn:Ep.
    + match type of H with
      | match ?e with _ => _ end = _ => destruct e eqn:E
      end.
      * injection H as ->. apply (IHs (S pos) g k x) in E as (n & Hn & Hf & Hk).
        exists (S n). rewrite Nat.add_succ_r. simpl.
        repeat split; [lia | constructor; [exact Ep | exact Hf] | exact Hk].
      * exists 0. rewrite Nat.add_0_r. repeat split; [simpl; lia | constructor | exact H].
    + exists 0. rewrite Nat.add_0_r. repeat split; [simpl; lia | constructor | exact H].
Qed.

Lemma exec_grp_plus (p : char -> bool) (pos : nat) (s : str) g k x :
  exec ic (Grp (plus p)) pos s g k = Some x ->
  exists n, n <= length s /\ Forall (fun c => p c = true) (take n s)
            /\ k (pos + n) (drop n s) (Some (pos, pos + n)) = Some x.
Proof.
  intros H.
  change (exec ic (Grp (plus p)) pos s g k)
    with (match s with
          | d :: s' =>
              if p d
              then exec ic (Many p) (S pos) s' g
                        (fun pos' s' _ => k pos' s' (Some (pos, pos')))
              else None
          | [] => None
          end) in H.
  destruct s as [|d s']; [discriminate|]. destruct (p d) eqn:Ep; [|discriminate].
  apply exec_many_class in H as (n & Hn & Hf & Hk).
  exists (S n). rewrite Nat.add_succ_r. simpl.
  repeat split; [lia | constructor; [exact Ep | exact Hf] | exact Hk].
Qed.

Lemma exec_seq_unfold (r1 r2 : regex) (pos : nat) (s : str) g k :
  exec ic (Seq r1 r2) pos s g k
  = exec ic r1 pos s g (fun pos' s' g' => exec ic r2 pos' s' g' k).
Proof. reflexivity. Qed.

Lemma exec_seq_sound (r1 r2 : regex) (pos : nat) (s : str) g k x :
  exec ic (Seq r1 r2) pos s g k = Some x ->
  exists n g', n <= length s /\ exec ic r2 (pos + n) (drop n s) g' k = Some x.
Proof.
  cbn [exec]. intros H. apply exec_sound in H as (n & g' & Hn & H & _).
  eauto.
Qed.

End ExecMore.

(** Group 1 of a match of the alias pattern holds no closing
    parenthesis. *)
Lemma alias_match_group (pos : nat) (s : str) (m : rmatch) :
  match_at true ALIAS_PATTERN pos s = Some m ->
  exists a n, m_span1 m = Some (pos + a, pos + a + n)
              /\ Forall (fun c => re_not_rparen c = true) (take n (drop a s)).
Proof.
  unfold match_at, ALIAS_PATTERN. cbn [cat]. intros H.
  apply exec_seq_sound in H as (n1 & g1 & _ & H).
  apply exec_seq_sound in H as (n2 & g2 & _ & H).
  apply exec_seq_sound in H as (n3 & g3 & _ & H).
  apply exec_seq_sound in H as (n4 & g4 & _ & H).
  rewrite exec_seq_unfold in H.
  apply exec_grp_plus in H as (n & _ & Hf & H).
  cbn [exec] in H.
  destruct (drop n _) as [|d t] in H; [discriminate|].
  destruct (lit_match true (L1 ")") d); [|discriminate].
  injection H as <-. cbn [m_span1].
  exists (n1 + n2 + n3 + n4), n. rewrite !drop_drop in Hf.
  rewrite !Nat.add_assoc in *. split; [reflexivity | exact Hf].
Qed.

Lemma alias_group_no_rparen (R : str) (m : rmatch) (raw_aliases : str) :
  re_search true ALIAS_PATTERN R = Some m ->
  group1 m R = Some raw_aliases ->
  ~ In (L1 ")") raw_aliases.
Proof.
  intros Hs Hg Hin. apply search_from_match_at in Hs as (i & _ & Hs).
  apply alias_match_group in Hs as (a & n & Hspan & Hf).
  unfold group1 in Hg. rewrite Hspan in Hg. injection Hg as <-.
  rewrite drop_drop in Hf.
  cbn [Nat.add] in Hin.
  replace (i + a + n - (i + a)) with n in Hin by lia.
  rewrite Forall_forall in Hf. rewrite <- list_elem_of_In in Hin.
  apply Hf in Hin. discriminate Hin.
Qed.

Lemma In_reverse (c : char) (l : str) : In c (reverse l) <-> In c l.
Proof. now rewrite <- !list_elem_of_In, elem_of_reverse. Qed.

(** The pieces of [re.split] are made of characters of the subject. *)
Lemma split_from_In (ic : bool) (r : regex) (c : char) (s : str) :
  forall pos skip cur piece,
    In piece (split_from ic r pos skip cur s) -> In c piece ->
    In c cur \/ In c s.
Proof.
  induction s as [|d s IH]; intros pos skip cur piece Hp Hc; cbn [split_from] in Hp.
  - destruct Hp as [<-|[]]. left. now apply In_reverse.
  - assert (Hpush : In piece (split_from ic r (S pos) 0 (d :: cur) s) ->
                    In c cur \/ In c (d :: s)).
    { intros H. destruct (IH _ _ _ _ H Hc) as [[->|?]|?]; simpl; auto. }
    destruct skip as [|k].
    + destruct (match_at ic r pos (d :: s)) as [m|]; [|auto].
      destruct (Nat.ltb pos (m_end m)); [|auto].
      destruct Hp as [<-|Hp]; [left; now apply In_reverse|].
      destruct (IH _ _ _ _ Hp Hc) as [[]|?]. right. now right.
    + destruct (IH _ _ _ _ Hp Hc) as [?|?]; [now left | right; now right].
Qed.

(** A character at which the pattern always matches is in no piece. *)
Lemma split_from_never (ic : bool) (r : regex) (c0 : char) :
  (forall pos s', exists m, match_at ic r pos (c0 :: s') = Some m /\ pos < m_end m) ->
  forall s pos skip cur piece,
    In piece (split_from ic r pos skip cur s) -> In c0 piece -> In c0 cur.
Proof.
  intros Hm. induction s as [|d s IH]; intros pos skip cur piece Hp Hc;
    cbn [split_from] in Hp.
  - destruct Hp as [<-|[]]. now apply In_reverse.
  - destruct skip as [|k]; [|now apply (IH _ _ _ _ Hp Hc)].
    destruct (match_at ic r pos (d :: s)) as [m|] eqn:E.
    + destruct (Nat.ltb_spec pos (m_end m)) as [Hlt|Hge].
      * destruct Hp as [<-|Hp]; [now apply In_reverse|].
        destruct (IH _ _ _ _ Hp Hc).
      * destruct (IH _ _ _ _ Hp Hc) as [->|?]; [|assumption].
        destruct (Hm pos s) as (m' & Hm' & Hlt). rewrite E in Hm'.
        injection Hm' as <-. lia.
    + destruct (IH _ _ _ _ Hp Hc) as [->|?]; [|assumption].
      destruct (Hm pos s) as (m' & Hm' & _). congruence.
Qed.

Section ExecUnfold.
Context {R : Type} (ic : bool).

Lemma exec_alt_unfold (r1 r2 : regex) (pos : nat) (s : str) g
      (k : nat -> str -> option (nat * nat) -> option R) :
  exec ic (Alt r1 r2) pos s g k
  = match exec ic r1 pos s g k with
    | Some x => Some x
    | None => exec ic r2 pos s g k
    end.
Proof. reflexivity. Qed.

Lemma exec_lit_cons (c d : char) (pos : nat) (s : str) g
      (k : nat -> str -> option (nat * nat) -> option R) :
  exec ic (Lit c) pos (d :: s) g k
  = if lit_match ic c d then k (S pos) s g else None.
Proof. reflexivity. Qed.

End ExecUnfold.

(** The separator pattern matches at every semicolon. *)
Lemma alias_sep_semicolon (pos : nat) (s' : str) :
  exists m, match_at false ALIAS_SEP pos (L1 ";" :: s') = Some m /\ pos < m_end m.
Proof.
  destruct (match_at false ALIAS_SEP pos (L1 ";" :: s')) as [m|] eqn:E.
  - exists m. split; [reflexivity|].
    now apply (match_at_nonempty false ALIAS_SEP pos (L1 ";" :: s') m).
  - exfalso. unfold match_at, ALIAS_SEP in E. cbn [alts cat] in E.
    rewrite exec_alt_unfold, exec_seq_unfold, exec_lit_cons in E.
    change (lit_match false (L1 ";") (L1 ";")) with true in E. cbv iota in E.
    match type of E with
    | match exec false ?r ?p ?s ?g ?k with _ => _ end = _ =>
        destruct (exec_infallible false r eq_refl p s g k) as [x Hx];
          [intros; eexists; reflexivity | rewrite Hx in E; discriminate E]
    end.
Qed.

Lemma In_strip_by (q : char -> bool) (c : char) (s : str) :
  In c (strip_by q s) -> In c s.
Proof.
  unfold strip_by.
  destruct (lstrip_by_split q s) as (lead & Hl & _).
  destruct (rstrip_by_split q (lstrip_by q s)) as (trail & Ht & _).
  intros H. rewrite Hl, Ht, !in_app_iff. tauto.
Qed.

(** X9. The aliases of a returned record are trimmed and hold neither a
    semicolon nor a closing parenthesis. *)
Theorem parse_entry_aliases_clean (raw : str) (e : entity) (a : str) :
  parse_entry raw = Ret (Some e) ->
  In a (aliases e) ->
  trimmed a /\ ~ In (L1 ";") a /\ ~ In (L1 ")") a.
Proof.
  rewrite parse_entry_unfold. intros H Ha.
  destruct (Nat.ltb (length (collapse raw)) 5); [discriminate|].
  destruct (Nat.ltb (length (derived_brand (collapse raw))) 5); [discriminate|].
  destruct (negb _); [discriminate|]. injection H as <-. cbn [aliases] in Ha.
  unfold derived_aliases in Ha.
  destruct (re_search true ALIAS_PATTERN (collapse raw)) as [m|] eqn:Es; [|destruct Ha].
  destruct (group1 m (collapse raw)) as [ra|] eqn:Eg; [|destruct Ha].
  unfold split_aliases in Ha. apply in_map_iff in Ha as (p & <- & Hp).
  apply List.filter_In in Hp as [Hp _]. unfold re_split in Hp.
  assert (Hsub : forall c, In c (strip (strip_chars (txt ";,") (strip p))) -> In c p).
  { intros c Hc. apply In_strip in Hc. apply In_strip_by in Hc. now apply In_strip in Hc. }
  split; [apply strip_trimmed|]. split; intros Hc; apply Hsub in Hc.
  - now apply (split_from_never false ALIAS_SEP (L1 ";") alias_sep_semicolon
                                _ _ _ _ _ Hp) in Hc.
  - destruct (split_from_In _ _ _ _ _ _ _ _ Hp Hc) as [[]|Hc'].
    now apply (alias_group_no_rparen _ _ _ Es Eg).
Qed.

Lemma parse_entry_aliases_clean_witness :
  trimmed (txt "Acme Tex") /\ ~ In (L1 ";") (txt "Acme Tex")
  /\ ~ In (L1 ")") (txt "Acme Tex").
Proof.
  apply (parse_entry_aliases_clean
           (txt "Acme Textile Co. (also known as Acme Textiles; and Acme Tex)")
           (mk_entity (txt "Acme Textile Co") [txt "Acme Textiles"; txt "Acme Tex"])).
  - vm_compute. reflexivity.
  - right. left. reflexivity.
Defined.

(** ** The SQL renderer, continued *)

Lemma literal_value_escape_sql (s : str) : literal_value (escape_sql s) = s.
Proof.
  rewrite escape_sql_double_quotes. unfold double_quotes.
  induction s as [|c s IH]; [reflexivity|].
  cbn [flat_map]. destruct (decide (c = SQUOTE)) as [->|Hne].
  - cbn [app literal_value]. now rewrite char_eqb_refl, IH.
  - cbn [app literal_value].
    destruct (char_eqb c SQUOTE) eqn:E; [apply char_eqb_eq in E; contradiction|].
    now rewrite IH.
Qed.

(** X10. An escaped string is the body of a well-formed single-quoted SQL
    literal, never closed before its end, and the literal reads back as
    the string. *)
Theorem escape_sql_literal (s : str) :
  literal_body (escape_sql s) = true
  /\ literal_value (escape_sql s) = s.
Proof.
  split; [|apply literal_value_escape_sql].
  rewrite escape_sql_double_quotes. unfold double_quotes.
  induction s as [|c s IH]; [reflexivity|].
  cbn [flat_map]. destruct (decide (c = SQUOTE)) as [->|Hne].
  - cbn [app literal_body]. now rewrite !char_eqb_refl, IH.
  - cbn [app literal_body].
    destruct (char_eqb c SQUOTE) eqn:E; [apply char_eqb_eq in E; contradiction|].
    exact IH.
Qed.

(** X11. Escaping loses nothing: two strings with the same escaped form are
    the same string. *)
Theorem escape_sql_injective (s1 s2 : str) :
  escape_sql s1 = escape_sql s2 -> s1 = s2.
Proof.
  intros H.
  rewrite <- (literal_value_escape_sql s1), <- (literal_value_escape_sql s2).
  now rewrite H.
Qed.

Lemma escape_sql_injective_witness : txt "O'Brien Mining" = txt "O'Brien Mining".
Proof. apply escape_sql_injective. reflexivity. Defined.

(** ** De-duplication, continued *)

Lemma main_entities_eq (raw_entries : list raw_entry) :
  main_entities raw_entries = Ret (first_seen (parsed_records raw_entries)).
Proof.
  unfold main_entities.
  destruct (dedup_loop raw_entries [] [] ∅) as [seen' Hloop].
  { intros k. now rewrite elem_of_empty, elem_of_nil. }
  now rewrite Hloop.
Qed.

Lemma In_parsed_records (raw_entries : list raw_entry) (e : entity) :
  In e (parsed_records raw_entries)
  <-> exists re, In re raw_entries /\ parse_entry (snd re) = Ret (Some e).
Proof.
  unfold parsed_records. rewrite <- list_elem_of_In, list_elem_of_omap. split.
  - intros (re & Hin & H). exists re. rewrite <- list_elem_of_In. split; [exact Hin|].
    destruct (parse_entry (snd re)) as [[e'|]|]; try discriminate. now injection H as ->.
  - intros (re & Hin & H). exists re. rewrite list_elem_of_In. split; [exact Hin|].
    now rewrite H.
Qed.

Lemma length_parsed_records (raw_entries : list raw_entry) :
  length (parsed_records raw_entries) <= length raw_entries.
Proof.
  unfold parsed_records. induction raw_entries as [|re l IH]; [reflexivity|].
  cbn [omap list_omap length].
  destruct (parse_entry (snd re)) as [[e|]|]; cbn [length]; lia.
Qed.

Lemma first_seen_after_In (l : list entity) :
  forall earlier e, In e (first_seen_after earlier l) -> In e l.
Proof.
  induction l as [|x l IH]; intros earlier e; [easy|].
  rewrite first_seen_after_cons, in_app_iff. intros [H|H].
  - destruct (decide _); [destruct H|]. destruct H as [<-|[]]. now left.
  - right. now apply IH in H.
Qed.

Lemma first_seen_after_length (l : list entity) :
  forall earlier, length (first_seen_after earlier l) <= length l.
Proof.
  induction l as [|x l IH]; intros earlier; [reflexivity|].
  rewrite first_seen_after_cons, length_app. specialize (IH (earlier ++ [x])).
  destruct (decide _); cbn [length]; lia.
Qed.

Lemma first_seen_after_cover (l : list entity) :
  forall earlier e,
    In e l ->
    dedup_key e ∈ dedup_key <$> earlier
    \/ exists e', In e' (first_seen_after earlier l) /\ dedup_key e' = dedup_key e.
Proof.
  induction l as [|x l IH]; intros earlier e; [easy|].
  rewrite first_seen_after_cons. intros [->|Hin].
  - destruct (decide (dedup_key e ∈ dedup_key <$> earlier)) as [Hy|Hn]; [now left|].
    right. exists e. split; [now left | reflexivity].
  - destruct (IH (earlier ++ [x]) e Hin) as [Hk|(e' & He' & Hk)].
    + rewrite fmap_app, elem_of_app in Hk. cbn [fmap list_fmap] in Hk.
      rewrite list_elem_of_singleton in Hk. destruct Hk as [Hk|Hk]; [now left|].
      destruct (decide (dedup_key x ∈ dedup_key <$> earlier)) as [Hy|Hn].
      * left. now rewrite Hk.
      * right. exists x. split; [now left | now symmetry].
    + right. exists e'. split; [|exact Hk]. apply in_app_iff. now right.
Qed.

(** X12. De-duplication invents no record and loses no brand: every emitted
    record is the parse of a raw entry, every record parsed from a raw
    entry has its lower-cased brand among the emitted ones, and there are
    no more records than raw entries. *)
Theorem main_entities_sound_complete (raw_entries : list raw_entry) :
  exists entities,
    main_entities raw_entries = Ret entities
    /\ (forall e, In e entities ->
                  exists re, In re raw_entries /\ parse_entry (snd re) = Ret (Some e))
    /\ (forall re e, In re raw_entries -> parse_entry (snd re) = Ret (Some e) ->
                     exists e', In e' entities /\ lower (brand e') = lower (brand e))
    /\ length entities <= length raw_entries.
Proof.
  exists (first_seen (parsed_records raw_entries)).
  split; [apply main_entities_eq|]. unfold first_seen. repeat split.
  - intros e He. apply first_seen_after_In in He. now apply In_parsed_records.
  - intros re e Hin Hp.
    assert (He : In e (parsed_records raw_entries)) by (apply In_parsed_records; eauto).
    destruct (first_seen_after_cover _ [] e He) as [Hk|H]; [|exact H].
    now apply elem_of_nil in Hk.
  - pose proof (first_seen_after_length (parsed_records raw_entries) []).
    pose proof (length_parsed_records raw_entries). lia.
Qed.

Lemma first_seen_after_app (l l' : list entity) :
  forall earlier,
    first_seen_after earlier (l ++ l')
    = first_seen_after earlier l ++ first_seen_after (earlier ++ l) l'.
Proof.
  induction l as [|x l IH]; intros earlier.
  - cbn [app]. now rewrite first_seen_after_nil, app_nil_r.
  - cbn [app]. rewrite !first_seen_after_cons, IH, <- !app_assoc. reflexivity.
Qed.

Lemma parsed_records_app (l1 l2 : list raw_entry) :
  parsed_records (l1 ++ l2) = parsed_records l1 ++ parsed_records l2.
Proof. unfold parsed_records. apply omap_app. Qed.

(** X13. Raw entries that come later never change the records already
    emitted: the records of a sequence are a prefix of the records of
    any longer sequence. *)
Theorem main_entities_append (l1 l2 : list raw_entry) :
  exists entities more,
    main_entities l1 = Ret entities
    /\ main_entities (l1 ++ l2) = Ret (entities ++ more).
Proof.
  exists (first_seen (parsed_records l1)),
         (first_seen_after (parsed_records l1) (parsed_records l2)).
  rewrite !main_entities_eq. split; [reflexivity|].
  unfold first_seen. now rewrite parsed_records_app, first_seen_after_app.
Qed.

Lemma parsed_records_snd (l : list raw_entry) :
  parsed_records l = parsed_records (map (fun re => (tag_list, snd re)) l).
Proof.
  unfold parsed_records. induction l as [|re l IH]; [reflexivity|].
  cbn [map omap list_omap snd]. now rewrite IH.
Qed.

(** X14. The tag of a raw entry plays no part in the records: two sequences
    with the same texts give the same records. *)
Theorem main_entities_ignores_tags (l1 l2 : list raw_entry) :
  map snd l1 = map snd l2 -> main_entities l1 = main_entities l2.
Proof.
  intros H. rewrite !main_entities_eq.
  rewrite (parsed_records_snd l1), (parsed_records_snd l2).
  rewrite <- !(map_map snd (fun s => (tag_list, s))). now rewrite H.
Qed.

Lemma main_entities_ignores_tags_witness :
  main_entities [(tag_bullet, txt "Acme Mining Co."); (tag_list, txt "Beta Group")]
  = main_entities [(tag_list, txt "Acme Mining Co."); (tag_bullet, txt "Beta Group")].
Proof. apply main_entities_ignores_tags. reflexivity. Defined.

(** ** The segmenter, continued *)

(** The first piece of [re.split] is the subject up to the first offset
    at which the pattern has a non-empty match. *)
Lemma split_from_first (ic : bool) (r : regex) (s : str) :
  forall pos cur,
    exists n,
      n <= length s
      /\ hd [] (split_from ic r pos 0 cur s) = reverse cur ++ take n s
      /\ forall i m, i < n -> match_at ic r (pos + i) (drop i s) = Some m ->
                     m_end m <= pos + i.
Proof.
  induction s as [|d s IH]; intros pos cur.
  - exists 0. cbn. rewrite app_nil_r. repeat split; [lia | intros; lia].
  - assert (Hpush : exists n,
               n <= length (d :: s)
               /\ hd [] (split_from ic r (S pos) 0 (d :: cur) s)
                  = reverse cur ++ take n (d :: s)
               /\ forall i m, 0 < i -> i < n ->
                              match_at ic r (pos + i) (drop i (d :: s)) = Some m ->
                              m_end m <= pos + i).
    { destruct (IH (S pos) (d :: cur)) as (n & Hn & Hhd & Hno).
      exists (S n). rewrite Hhd, reverse_cons, <- app_assoc.
      repeat split; [simpl; lia|]. intros [|i] m Hpos Hi; [lia|].
      rewrite Nat.add_succ_r. apply Hno. lia. }
    cbn [split_from].
    destruct (match_at ic r pos (d :: s)) as [m|] eqn:E.
    + destruct (Nat.ltb_spec pos (m_end m)) as [Hlt|Hge].
      * exists 0. cbn [hd take]. rewrite app_nil_r.
        repeat split; [lia | intros; lia].
      * destruct Hpush as (n & Hn & Hhd & Hno). exists n.
        repeat split; [exact Hn | exact Hhd|].
        intros [|i] m' Hi Hm; [|apply Hno; [lia | exact Hi | exact Hm]].
        rewrite Nat.add_0_r in *. cbn [drop] in Hm. congruence.
    + destruct Hpush as (n & Hn & Hhd & Hno). exists n.
      repeat split; [exact Hn | exact Hhd|].
      intros [|i] m' Hi Hm; [|apply Hno; [lia | exact Hi | exact Hm]].
      rewrite Nat.add_0_r in Hm. cbn [drop] in Hm. congruence.
Qed.

Lemma contains_strip (w s : str) : contains w (strip s) -> contains w s.
Proof.
  destruct (strip_split s) as (lead & trail & H).
  intros (pre & post & Hc). exists (lead ++ pre), (post ++ trail).
  rewrite H at 1. rewrite Hc. now rewrite <- !app_assoc.
Qed.

Lemma contains_take (w s : str) (n : nat) :
  w <> [] -> contains w (take n s) ->
  exists i, i < n /\ starts_lit false w (drop i s) = true.
Proof.
  intros Hw (pre & post & Hc). exists (length pre).
  assert (Hlen : length pre + length w <= n).
  { apply (f_equal length) in Hc. rewrite !length_app, length_take in Hc. lia. }
  split.
  - destruct w; [congruence|]. simpl in Hlen. lia.
  - rewrite starts_lit_cs. apply startswith_prefix.
    exists (post ++ drop n s).
    rewrite <- (take_drop n s) at 1. rewrite Hc, <- !app_assoc.
    now rewrite drop_app_length.
Qed.

(** A bullet entry is not empty, is trimmed, has no two white-space
    characters in a row, and holds none of the three phrases at which the
    fragment is cut. *)
Lemma bullet_entry_ok (part : str) (re : raw_entry) :
  In re (bullet_entry part) ->
  fst re = tag_bullet /\ snd re <> [] /\ trimmed (snd re) /\ no_ws_run (snd re)
  /\ forall w, In w (map txt [ "This update also"; "UFLPA Section"; "Appendix" ]%string) ->
               ~ contains w (snd re).
Proof.
  unfold bullet_entry. fold (collapse part).
  set (piece := hd [] (re_split false SECTION_CUT (collapse part))).
  destruct (nonempty (strip piece)) eqn:En; [|intros []].
  intros [<-|[]]. cbn [fst snd].
  destruct (split_from_first false SECTION_CUT (collapse part) 0 [])
    as (n & Hn & Hhd & Hno).
  fold (re_split false SECTION_CUT (collapse part)) in Hhd. fold piece in Hhd.
  cbn [reverse app] in Hhd. change (reverse [] ++ ?x) with x in Hhd.
  split; [reflexivity|]. split; [now destruct (strip piece)|].
  split; [apply strip_trimmed|]. split.
  - apply (tidy_no_ws_run _ false), (strip_tidy _ false). rewrite Hhd.
    apply (tidy_from_app_l _ (drop n (collapse part))). rewrite take_drop.
    apply collapse_tidy.
  - intros w Hw Hc. apply contains_strip in Hc. rewrite Hhd in Hc.
    apply contains_take in Hc as (i & Hi & Hs).
    2:{ cbn in Hw. intuition (subst; discriminate). }
    assert (Hm : is_match (match_at false SECTION_CUT (0 + i) (drop i (collapse part)))
                 = true).
    { change SECTION_CUT
        with (alts (lits (txt "This update also"))
                   (map lits [txt "UFLPA Section"; txt "Appendix"])).
      rewrite match_at_alts_lits.
      apply existsb_exists. exists w. split; [exact Hw | exact Hs]. }
    destruct (match_at false SECTION_CUT (0 + i) (drop i (collapse part)))
      as [m|] eqn:E; [|discriminate].
    pose proof (match_at_nonempty false SECTION_CUT _ _ m eq_refl E).
    specialize (Hno i m Hi E). lia.
Qed.

Lemma join_snoc (sep : str) (seg : list str) (x : str) :
  seg <> [] -> join sep (seg ++ [x]) = join sep seg ++ sep ++ x.
Proof.
  induction seg as [|a seg IH]; [congruence|]. intros _.
  destruct seg as [|b seg]; [reflexivity|].
  change (join sep ((a :: b :: seg) ++ [x]))
    with (a ++ sep ++ join sep ((b :: seg) ++ [x])).
  rewrite IH by discriminate.
  change (join sep (a :: b :: seg)) with (a ++ sep ++ join sep (b :: seg)).
  now rewrite <- !app_assoc.
Qed.

Lemma segment_of_snoc (done : list str) (line e : str) :
  segment_of done e -> segment_of (done ++ [line]) e.
Proof.
  intros (before & seg & after & -> & Hne & ->).
  exists before, seg, (after ++ [line]). now rewrite <- !app_assoc.
Qed.

Lemma accumulate_line_segments (done : list str) (entries0 : list raw_entry)
      (st : list raw_entry * option str) (line : str) :
  line <> [] -> accumulator_segments done entries0 st ->
  exists st', accumulate_line st line = Ret st'
              /\ accumulator_segments (done ++ [line]) entries0 st'.
Proof.
  intros Hne [(ls & Hent & Hls) Hcur]. destruct st as [entries current].
  cbn [fst snd] in Hent, Hcur. subst entries.
  assert (Hls' : Forall (fun re => fst re = tag_list
                                   /\ segment_of (done ++ [line]) (snd re)) ls).
  { eapply Forall_impl; [exact Hls|]. intros re [? ?]. split; [assumption|].
    now apply segment_of_snoc. }
  assert (Hflush : exists ls',
             flush (entries0 ++ ls) current = entries0 ++ ls'
             /\ Forall (fun re => fst re = tag_list
                                  /\ segment_of (done ++ [line]) (snd re)) ls').
  { unfold flush. destruct current as [s|]; [|eauto].
    destruct (nonempty s); [|eauto].
    exists (ls ++ [(tag_list, s)]). rewrite app_assoc. split; [reflexivity|].
    apply Forall_app. split; [exact Hls'|]. constructor; [|constructor].
    split; [reflexivity|]. cbn [snd]. apply segment_of_snoc.
    destruct (Hcur s eq_refl) as (_ & before & seg & -> & Hseg & ->).
    exists before, seg, []. now rewrite app_nil_r. }
  assert (Hfalsy : truthy current = true \/ current = None).
  { destruct current as [s|]; [left | now right]. cbn [truthy].
    destruct (Hcur s eq_refl) as [Hs _]. now destruct s. }
  assert (Hnone : forall entries',
             (exists ls', entries' = entries0 ++ ls'
                          /\ Forall (fun re => fst re = tag_list
                                               /\ segment_of (done ++ [line]) (snd re)) ls') ->
             accumulator_segments (done ++ [line]) entries0 (entries', None)).
  { intros entries' H. split; [exact H | discriminate]. }
  unfold accumulate_line.
  destruct (is_match (re_match true SKIP_LINE line)).
  { destruct Hfalsy as [Et|Et]; [rewrite Et | rewrite Et; cbn [truthy]];
      eexists; (split; [reflexivity|]).
    - apply Hnone. destruct Hflush as (ls' & -> & ?). eauto.
    - apply Hnone. eauto. }
  destruct line as [|c0 rest]; [congruence|]. cbn [first_char bind].
  destruct (starts_entry c0 (c0 :: rest)).
  { eexists. split; [reflexivity|]. split.
    - destruct Hflush as (ls' & -> & ?). cbn [fst]. eauto.
    - cbn [snd]. intros s [= <-]. split; [discriminate|].
      exists done, [c0 :: rest]. repeat split. discriminate. }
  destruct Hfalsy as [Et|Et]; [rewrite Et | rewrite Et; cbn [truthy]].
  - destruct (continues_entry c0 (c0 :: rest)); eexists; (split; [reflexivity|]).
    + split; [cbn [fst]; eauto|]. cbn [snd]. intros s [= <-].
      destruct current as [cur|]; [|discriminate]. cbn [default].
      destruct (Hcur cur eq_refl) as (Hc & before & seg & -> & Hseg & ->).
      split; [destruct (join (txt " ") seg); [congruence | discriminate]|].
      exists before, (seg ++ [c0 :: rest]). rewrite <- app_assoc.
      repeat split; [now destruct seg|].
      symmetry. exact (join_snoc (txt " ") seg (c0 :: rest) Hseg).
    + apply Hnone. destruct Hflush as (ls' & -> & ?). eauto.
  - eexists. split; [reflexivity|]. apply Hnone. eauto.
Qed.

Lemma for_each_accumulate_segments (entries0 : list raw_entry) (lines : list str) :
  forall done st,
    Forall (fun l => l <> []) lines -> accumulator_segments done entries0 st ->
    exists st', for_each accumulate_line st lines = Ret st'
                /\ accumulator_segments (done ++ lines) entries0 st'.
Proof.
  induction lines as [|line lines IH]; intros done st Hl Hinv.
  - exists st. now rewrite app_nil_r.
  - apply Forall_cons in Hl as [Hne Hl]. cbn [for_each].
    destruct (accumulate_line_segments done entries0 st line Hne Hinv)
      as (st1 & -> & Hinv1).
    cbn [bind]. destruct (IH (done ++ [line]) st1 Hl Hinv1) as (st' & Hr & Hinv').
    exists st'. split; [exact Hr|]. now rewrite <- app_assoc in Hinv'.
Qed.

(** The accumulator adds, after the entries it is given, list entries
    that are runs of consecutive lines joined by spaces. *)
Lemma accumulate_segments (entries0 : list raw_entry) (lines : list str) :
  Forall (fun l => l <> []) lines ->
  exists ls,
    accumulate entries0 lines = Ret (entries0 ++ ls)
    /\ Forall (fun re => fst re = tag_list /\ segment_of lines (snd re)) ls.
Proof.
  intros Hl. unfold accumulate.
  destruct (for_each_accumulate_segments entries0 lines [] (entries0, None) Hl)
    as ([entries current] & -> & [(ls & Hent & Hls) Hcur]).
  { split; [|discriminate]. exists []. now rewrite app_nil_r. }
  cbn [bind fst snd app] in *. subst entries. unfold flush.
  destruct current as [s|]; [|eauto]. destruct (nonempty s); [|eauto].
  exists (ls ++ [(tag_list, s)]). rewrite app_assoc. split; [reflexivity|].
  apply Forall_app. split; [exact Hls|]. constructor; [|constructor].
  split; [reflexivity|]. cbn [snd].
  destruct (Hcur s eq_refl) as (_ & before & seg & -> & Hseg & ->).
  exists before, seg, []. now rewrite app_nil_r.
Qed.

(** The whole segmenter: the bullet entries, then the list entries. *)
Lemma split_into_raw_entries_shape (text : str) :
  exists ls,
    split_into_raw_entries text = Ret (bullet_entries text ++ ls)
    /\ Forall (fun re => fst re = tag_list) ls
    /\ match re_search false LIST_HEADER text with
       | Some m => Forall (fun re => segment_of (list_lines text m) (snd re)) ls
       | None => ls = []
       end.
Proof.
  unfold split_into_raw_entries. fold (bullet_entries text).
  destruct (re_search false LIST_HEADER text) as [m|].
  - fold (list_lines text m).
    destruct (accumulate_segments (bullet_entries text) (list_lines text m))
      as (ls & Hr & Hls); [apply stripped_lines_nonempty|].
    exists ls. split; [exact Hr|].
    split; (eapply Forall_impl; [exact Hls|]; intros re [? ?]; assumption).
  - exists []. rewrite app_nil_r. repeat split. constructor.
Qed.

Lemma bullet_entries_ok (text : str) (re : raw_entry) :
  In re (bullet_entries text) ->
  fst re = tag_bullet /\ snd re <> [] /\ trimmed (snd re) /\ no_ws_run (snd re)
  /\ forall w, In w (map txt [ "This update also"; "UFLPA Section"; "Appendix" ]%string) ->
               ~ contains w (snd re).
Proof.
  unfold bullet_entries. rewrite in_flat_map. intros (part & _ & H).
  now apply (bullet_entry_ok part).
Qed.

(** X15. The segmenter emits the bullet entries first and the list entries
    after them. *)
Theorem split_into_raw_entries_order (text : str) :
  exists bs ls,
    split_into_raw_entries text = Ret (bs ++ ls)
    /\ Forall (fun re => fst re = tag_bullet) bs
    /\ Forall (fun re => fst re = tag_list) ls.
Proof.
  destruct (split_into_raw_entries_shape text) as (ls & Hr & Hls & _).
  exists (bullet_entries text), ls. split; [exact Hr|]. split; [|exact Hls].
  apply Forall_forall. intros re Hin. rewrite list_elem_of_In in Hin.
  now apply bullet_entries_ok in Hin.
Qed.

(** X16. Every bullet entry is non-empty and trimmed, has no two white-space
    characters in a row, and contains none of ["This update also"],
    ["UFLPA Section"] and ["Appendix"]. *)
Theorem split_into_raw_entries_bullet_entries (text : str) :
  exists entries,
    split_into_raw_entries text = Ret entries
    /\ forall e,
         In (tag_bullet, e) entries ->
         e <> [] /\ trimmed e /\ no_ws_run e
         /\ forall w,
              In w (map txt [ "This update also"; "UFLPA Section"; "Appendix" ]%string) ->
              ~ contains w e.
Proof.
  destruct (split_into_raw_entries_shape text) as (ls & Hr & Hls & _).
  eexists. split; [exact Hr|]. intros e He. apply in_app_iff in He as [He|He].
  - now apply bullet_entries_ok in He.
  - rewrite Forall_forall in Hls. rewrite <- list_elem_of_In in He.
    apply Hls in He. discriminate He.
Qed.

(** X17. Every list entry is a run of consecutive lines of the cleaned list
    section, stripped and joined by single spaces: the accumulator neither
    reorders nor alters the text of the lines it keeps. *)
Theorem split_into_raw_entries_list_segments (text : str) :
  exists entries,
    split_into_raw_entries text = Ret entries
    /\ forall e,
         In (tag_list, e) entries ->
         exists section_match,
           re_search false LIST_HEADER text = Some section_match
           /\ segment_of (list_lines text section_match) e.
Proof.
  destruct (split_into_raw_entries_shape text) as (ls & Hr & _ & Hseg).
  eexists. split; [exact Hr|]. intros e He. apply in_app_iff in He as [He|He].
  - apply bullet_entries_ok in He as [He _]. discriminate He.
  - destruct (re_search false LIST_HEADER text) as [m|]; [|subst ls; destruct He].
    exists m. split; [reflexivity|].
    rewrite Forall_forall in Hseg. rewrite <- list_elem_of_In in He.
    now apply Hseg in He.
Qed.

Lemma split_acc_no_sep (sep : char) (s : str) :
  ~ In sep s -> forall cur, split_acc sep cur s = [reverse cur ++ s].
Proof.
  induction s as [|c s IH]; intros Hno cur; cbn [split_acc].
  - now rewrite app_nil_r.
  - destruct (char_eqb c sep) eqn:E.
    + apply char_eqb_eq in E. exfalso. apply Hno. now left.
    + rewrite IH by (intros H; apply Hno; now right).
      now rewrite reverse_cons, <- app_assoc.
Qed.

Lemma list_header_literal (text : str) (m : rmatch) :
  re_search false LIST_HEADER text = Some m ->
  contains (txt "UFLPA Section 2(d)(2)(B)(i)") text.
Proof.
  intros H. apply search_from_match_at in H as (i & Hi & H).
  unfold match_at, LIST_HEADER in H. cbn [cat] in H.
  rewrite exec_seq_unfold, exec_lits in H.
  destruct (starts_lit false (txt "UFLPA Section 2(d)(2)(B)(i)") (drop i text)) eqn:E;
    [|discriminate].
  apply contains_starts_lit. eauto.
Qed.

(** X18. A text without a bullet gives no bullet entry, and a text in which
    ["UFLPA Section 2(d)(2)(B)(i)"] does not occur gives no list entry. *)
Theorem split_into_raw_entries_missing_parts (text : str) :
  exists entries,
    split_into_raw_entries text = Ret entries
    /\ (~ In Bullet text -> Forall (fun re => fst re = tag_list) entries)
    /\ (~ contains (txt "UFLPA Section 2(d)(2)(B)(i)") text ->
        Forall (fun re => fst re = tag_bullet) entries).
Proof.
  destruct (split_into_raw_entries_shape text) as (ls & Hr & Hls & Hseg).
  eexists. split; [exact Hr|]. split.
  - intros Hno. unfold bullet_entries, split.
    rewrite (split_acc_no_sep Bullet text Hno []). exact Hls.
  - intros Hno.
    destruct (re_search false LIST_HEADER text) as [m|] eqn:E.
    + apply list_header_literal in E. contradiction.
    + subst ls. rewrite app_nil_r. apply Forall_forall. intros re Hin.
      rewrite list_elem_of_In in Hin. now apply bullet_entries_ok in Hin.
Qed.

(** ** The cleaner *)

Lemma sub_from_length (ic : bool) (r : regex) (repl : str) (s : str) :
  length repl <= 1 ->
  forall pos skip, length (sub_from ic r repl pos skip s) <= length s.
Proof.
  intros Hrepl. induction s as [|c s IH]; intros pos skip; [reflexivity|].
  cbn [sub_from]. destruct skip as [|k].
  - destruct (match_at ic r pos (c :: s)) as [m|].
    + destruct (Nat.ltb pos (m_end m)).
      * rewrite length_app. specialize (IH (S pos) (m_end m - pos - 1)).
        cbn [length]. lia.
      * specialize (IH (S pos) 0). cbn [length]. lia.
    + specialize (IH (S pos) 0). cbn [length]. lia.
  - specialize (IH (S pos) k). cbn [length]. lia.
Qed.

(** X19. Cleaning never lengthens the text. *)
Theorem clean_text_length (text : str) : length (clean_text text) <= length text.
Proof.
  unfold clean_text, re_sub.
  pose proof (sub_from_length false FR_HEADER (txt " ") text (le_n 1) 0 0) as H1.
  pose proof (sub_from_length false VERDATE (txt " ")
                (sub_from false FR_HEADER (txt " ") 0 0 text) (le_n 1) 0 0) as H2.
  pose proof (sub_from_length false LOTTER (txt " ")
                (sub_from false VERDATE (txt " ") 0 0
                   (sub_from false FR_HEADER (txt " ") 0 0 text)) (le_n 1) 0 0) as H3.
  lia.
Qed.

Lemma sub_from_no_match (ic : bool) (r : regex) (repl : str) (s : str) :
  forall pos,
    (forall i, match_at ic r (pos + i) (drop i s) = None) ->
    sub_from ic r repl pos 0 s = s.
Proof.
  induction s as [|c s IH]; intros pos Hno; [reflexivity|].
  cbn [sub_from]. pose proof (Hno 0) as H0. rewrite Nat.add_0_r in H0.
  cbn [drop] in H0. rewrite H0. f_equal. apply IH.
  intros i. specialize (Hno (S i)). now rewrite Nat.add_succ_r in Hno.
Qed.

Lemma starts_lit_contains (w s : str) (i : nat) :
  starts_lit false w (drop i s) = true -> contains w s.
Proof.
  intros H. rewrite starts_lit_cs in H. apply startswith_prefix in H as [post H].
  exists (take i s), post. now rewrite <- H, take_drop.
Qed.

Lemma fr_header_literal (pos : nat) (s : str) (m : rmatch) :
  match_at false FR_HEADER pos s = Some m -> contains (txt " Federal Register") s.
Proof.
  unfold match_at, FR_HEADER. cbn [cat]. intros H.
  apply exec_seq_sound in H as (n1 & g1 & _ & H).
  apply exec_seq_sound in H as (n2 & g2 & _ & H).
  apply exec_seq_sound in H as (n3 & g3 & _ & H).
  apply exec_seq_sound in H as (n4 & g4 & _ & H).
  rewrite exec_seq_unfold, exec_lits, !drop_drop in H.
  destruct (starts_lit false (txt " Federal Register") _) eqn:E; [|discriminate].
  now apply starts_lit_contains in E.
Qed.

Lemma verdate_literal (pos : nat) (s : str) (m : rmatch) :
  match_at false VERDATE pos s = Some m -> contains (txt "VerDate") s.
Proof.
  unfold match_at, VERDATE. cbn [cat]. intros H.
  rewrite exec_seq_unfold, exec_lits in H.
  destruct (starts_lit false (txt "VerDate") s) eqn:E; [|discriminate].
  now apply (starts_lit_contains _ s 0).
Qed.

Lemma lotter_literal (pos : nat) (s : str) (m : rmatch) :
  match_at false LOTTER pos s = Some m -> contains (txt "lotter on") s.
Proof.
  unfold match_at, LOTTER. cbn [cat]. intros H.
  rewrite exec_seq_unfold, exec_lits in H.
  destruct (starts_lit false (txt "lotter on") s) eqn:E; [|discriminate].
  now apply (starts_lit_contains _ s 0).
Qed.

Lemma contains_drop (w s : str) (i : nat) : contains w (drop i s) -> contains w s.
Proof.
  intros (pre & post & H). exists (take i s ++ pre), post.
  rewrite <- app_assoc, <- H. now rewrite take_drop.
Qed.

Lemma re_sub_no_literal (r : regex) (w s : str) :
  (forall pos t m, match_at false r pos t = Some m -> contains w t) ->
  ~ contains w s ->
  re_sub false r (txt " ") s = s.
Proof.
  intros Hlit Hno. unfold re_sub. apply sub_from_no_match. intros i.
  destruct (match_at false r (0 + i) (drop i s)) as [m|] eqn:E; [|reflexivity].
  apply Hlit in E. apply contains_drop in E. contradiction.
Qed.

(** X20. A text in which none of [" Federal Register"], ["VerDate"] and
    ["lotter on"] occurs is left as it is by the cleaner. *)
Theorem clean_text_unchanged (text : str) :
  ~ contains (txt " Federal Register") text ->
  ~ contains (txt "VerDate") text ->
  ~ contains (txt "lotter on") text ->
  clean_text text = text.
Proof.
  intros H1 H2 H3. unfold clean_text.
  rewrite (re_sub_no_literal FR_HEADER _ text fr_header_literal H1).
  rewrite (re_sub_no_literal VERDATE _ text verdate_literal H2).
  now rewrite (re_sub_no_literal LOTTER _ text lotter_literal H3).
Qed.

Lemma clean_text_unchanged_witness :
  clean_text (txt "Beta Holdings Group" ++ [NL] ++ txt "(a subsidiary of Gamma)")
  = txt "Beta Holdings Group" ++ [NL] ++ txt "(a subsidiary of Gamma)".
Proof.
  apply clean_text_unchanged; rewrite contains_scan; vm_compute; discriminate.
Defined.

(** ** The empty result *)

Lemma first_seen_nil_iff (l : list entity) : first_seen l = [] <-> l = [].
Proof.
  split; [|now intros ->]. destruct l as [|x l]; [reflexivity|].
  unfold first_seen. rewrite first_seen_after_cons.
  destruct (decide (dedup_key x ∈ dedup_key <$> [])) as [H|_]; [|discriminate].
  now apply elem_of_nil in H.
Qed.

Lemma parsed_records_nil_iff (raw_entries : list raw_entry) :
  parsed_records raw_entries = []
  <-> forall re, In re raw_entries -> parse_entry (snd re) = Ret None.
Proof.
  split.
  - intros H re Hin. destruct (parse_entry_returns (snd re)) as [[e|] Ho]; [|exact Ho].
    assert (He : In e (parsed_records raw_entries)) by (apply In_parsed_records; eauto).
    rewrite H in He. destruct He.
  - intros H. destruct (parsed_records raw_entries) as [|e l] eqn:E; [reflexivity|].
    assert (He : In e (parsed_records raw_entries)) by (rewrite E; now left).
    apply In_parsed_records in He as (re & Hin & Hp).
    rewrite (H re Hin) in Hp. discriminate Hp.
Qed.

(** X21. The loop of [main] ends with no record, the case in which
    [main] reports that no entities were found, exactly when every raw
    entry parses to [None]. *)
Theorem main_entities_empty_iff (raw_entries : list raw_entry) :
  exists entities,
    main_entities raw_entries = Ret entities
    /\ (entities = []
        <-> forall re, In re raw_entries -> parse_entry (snd re) = Ret None).
Proof.
  exists (first_seen (parsed_records raw_entries)).
  split; [apply main_entities_eq|].
  now rewrite first_seen_nil_iff, parsed_records_nil_iff.
Qed.

(** ** Instances *)

Lemma In_squeeze_space (c : char) (s : str) :
  forall b, In c (squeeze b s) -> c = SP \/ In c s.
Proof.
  induction s as [|d s IH]; intros b; [easy|].
  cbn [squeeze]. destruct (isspace d).
  - destruct b.
    + intros H. apply IH in H. simpl. tauto.
    + intros [<-|H]; [now left|]. apply IH in H. simpl. tauto.
  - intros [<-|H]; [right; now left|]. apply IH in H. simpl. tauto.
Qed.

(** X6. An input made of white space only is rejected, whatever its
    length. *)
Theorem parse_entry_blank_input (raw : str) :
  Forall (fun c => isspace c = true) raw -> parse_entry raw = Ret None.
Proof.
  intros Hws. rewrite parse_entry_unfold.
  assert (Hc : collapse raw = []).
  { destruct (collapse raw) as [|c t] eqn:E; [reflexivity|]. exfalso.
    assert (Hsp : isspace c = false).
    { apply (collapse_trimmed raw). rewrite E. now left. }
    assert (Hin : In c (collapse raw)) by (rewrite E; now left).
    rewrite collapse_squeeze in Hin. apply In_strip, In_squeeze_space in Hin.
    destruct Hin as [->|Hin]; [discriminate Hsp|].
    rewrite Forall_forall in Hws. rewrite <- list_elem_of_In in Hin.
    apply Hws in Hin. congruence. }
  now rewrite Hc.
Qed.

Lemma parse_entry_blank_input_witness :
  parse_entry (txt "       " ++ [NL; L1 "009"%char]) = Ret None.
Proof.
  apply parse_entry_blank_input. repeat constructor.
Defined.

Lemma split_into_raw_entries_bullet_entries_witness :
  txt "Foo Mining Corp. some description." <> []
  /\ trimmed (txt "Foo Mining Corp. some description.")
  /\ no_ws_run (txt "Foo Mining Corp. some description.")
  /\ forall w,
       In w (map txt [ "This update also"; "UFLPA Section"; "Appendix" ]%string) ->
       ~ contains w (txt "Foo Mining Corp. some description.").
Proof.
  destruct (split_into_raw_entries_bullet_entries
              (txt "Notice " ++ [Bullet]
               ++ txt "  Foo Mining Corp.  some description. UFLPA Section 2"))
    as (entries & Heq & Hall).
  apply Hall. vm_compute in Heq. injection Heq as <-. left. reflexivity.
Defined.

Lemma split_into_raw_entries_list_segments_witness :
  exists section_match,
    re_search false LIST_HEADER
      (txt "UFLPA Section 2(d)(2)(B)(i) A List of Entities" ++ [NL]
       ++ txt "Beta Holdings Group" ++ [NL] ++ txt "(a subsidiary of Gamma)")
    = Some section_match
    /\ segment_of
         (list_lines
            (txt "UFLPA Section 2(d)(2)(B)(i) A List of Entities" ++ [NL]
             ++ txt "Beta Holdings Group" ++ [NL] ++ txt "(a subsidiary of Gamma)")
            section_match)
         (txt "Beta Holdings Group (a subsidiary of Gamma)").
Proof.
  destruct (split_into_raw_entries_list_segments
              (txt "UFLPA Section 2(d)(2)(B)(i) A List of Entities" ++ [NL]
               ++ txt "Beta Holdings Group" ++ [NL] ++ txt "(a subsidiary of Gamma)"))
    as (entries & Heq & Hall).
  apply Hall. vm_compute in Heq. injection Heq as <-. left. reflexivity.
Defined.

Lemma split_into_raw_entries_missing_parts_witness :
  exists entries,
    split_into_raw_entries (txt "Beta Holdings Group") = Ret entries
    /\ Forall (fun re => fst re = tag_list) entries
    /\ Forall (fun re => fst re = tag_bullet) entries.
Proof.
  destruct (split_into_raw_entries_missing_parts (txt "Beta Holdings Group"))
    as (entries & Heq & Hb & Hl).
  exists entries. split; [exact Heq|]. split.
  - apply Hb. vm_compute. intuition discriminate.
  - apply Hl. rewrite contains_scan. vm_compute. discriminate.
Defined.
